(** * p2pBurger: the WebRTC signaling server (server.js)

    A shallow embedding of the connection handlers of [server.js] and of
    [leaveRoom], with the room table as an insertion-ordered JavaScript
    [Map] and the WebSocket objects as a store of records addressed by
    handles, followed by the properties of the room protocol. *)

From stdpp Require Import base option list strings.

Local Open Scope string_scope.
Local Open Scope list_scope.
Local Set Warnings "-register-all".

(** ** JavaScript values

    What [JSON.parse] returns, plus [undefined] (what reading a missing
    property gives).  A number is held as the text [Number::toString]
    gives for it (the shortest decimal that reads back, ["0"] for both
    zeros): two numbers coming out of [JSON.parse] are the same Map key
    exactly when these texts are equal.  An object is the list of its own
    properties in enumeration order, each key once. *)

Inductive Value : Type :=
| VUndefined
| VNull
| VBool (b : bool)
| VNumber (lit : string)
| VString (s : string)
| VArray (items : list Value)
| VObject (props : list (string * Value)).

(** [!v], [v && ...], [v || ...]: ToBoolean. *)
Definition ToBoolean (v : Value) : bool :=
  match v with
  | VUndefined | VNull => false
  | VBool b => b
  | VNumber lit => negb (String.eqb lit "0")
  | VString s => negb (String.eqb s "")
  | VArray _ | VObject _ => true
  end.

(** [a || b] *)
Definition or_else (a b : Value) : Value := if ToBoolean a then a else b.

Fixpoint own_prop (k : string) (props : list (string * Value)) : Value :=
  match props with
  | [] => VUndefined
  | (k', v) :: rest => if decide (k' = k) then v else own_prop k rest
  end.

Definition has_own (k : string) (props : list (string * Value)) : bool :=
  bool_decide (k ∈ props.*1).

(** [data.k] for the keys the server reads ([type], [roomId],
    [targetPeerId]; no prototype defines them): [None] is the TypeError
    of reading a property of [null] or [undefined]. *)
Definition Get (data : Value) (k : string) : option Value :=
  match data with
  | VUndefined | VNull => None
  | VObject props => Some (own_prop k props)
  | _ => Some VUndefined
  end.

(** [{...obj, k: v}]: the spread copies the own properties in order, the
    assignment then replaces the value of [k] where it stands, or adds
    [k] at the end. *)
Fixpoint set_prop (k : string) (v : Value) (props : list (string * Value))
  : list (string * Value) :=
  match props with
  | [] => [(k, v)]
  | (k', v') :: rest =>
      if decide (k' = k) then (k', v) :: rest else (k', v') :: set_prop k v rest
  end.

(** The conversion a template literal applies to [${v}].  [None] is the
    TypeError "Cannot convert object to primitive value": a parsed object
    with an own [toString] property has a non-callable [toString], and
    [valueOf] (its own, or Object.prototype's, which returns the object)
    gives no primitive either.  An array is joined with commas, [null]
    and [undefined] items giving the empty text. *)
Fixpoint ToString (v : Value) : option string :=
  match v with
  | VUndefined => Some "undefined"
  | VNull => Some "null"
  | VBool true => Some "true"
  | VBool false => Some "false"
  | VNumber lit => Some lit
  | VString s => Some s
  | VArray items =>
      (fix join (l : list Value) : option string :=
         match l with
         | [] => Some ""
         | x :: rest =>
             let item := match x with
                         | VUndefined | VNull => Some ""
                         | _ => ToString x
                         end in
             match item with
             | None => None
             | Some sx =>
                 match rest with
                 | [] => Some sx
                 | _ :: _ =>
                     match join rest with
                     | Some sr => Some (sx +:+ "," +:+ sr)
                     | None => None
                     end
                 end
             end
         end) items
  | VObject props =>
      if has_own "toString" props then None else Some "[object Object]"
  end.

(** Structural equality of values is decidable. *)
Fixpoint Value_eqb (x y : Value) {struct x} : bool :=
  match x, y with
  | VUndefined, VUndefined => true
  | VNull, VNull => true
  | VBool a, VBool b => Bool.eqb a b
  | VNumber a, VNumber b => String.eqb a b
  | VString a, VString b => String.eqb a b
  | VArray l, VArray l' =>
      (fix go (l l' : list Value) : bool :=
         match l, l' with
         | [], [] => true
         | a :: r, b :: r' => Value_eqb a b && go r r'
         | _, _ => false
         end) l l'
  | VObject l, VObject l' =>
      (fix go (l l' : list (string * Value)) : bool :=
         match l, l' with
         | [], [] => true
         | (k, a) :: r, (k', b) :: r' =>
             String.eqb k k' && Value_eqb a b && go r r'
         | _, _ => false
         end) l l'
  | _, _ => false
  end.

#[global] Instance Value_eq_dec : EqDecision Value.
Proof.
  assert (Heq : ∀ x y, Value_eqb x y = true ↔ x = y).
  { fix IH 1. intros x y; destruct x, y; simpl;
      try (split; [discriminate | congruence]);
      try (split; [reflexivity | reflexivity]).
    - rewrite Bool.eqb_true_iff. split; congruence.
    - rewrite String.eqb_eq. split; congruence.
    - rewrite String.eqb_eq. split; congruence.
    - revert items0. induction items as [|a r IHr]; intros [|b r']; simpl;
        try (split; [discriminate | congruence]); [split; reflexivity |].
      rewrite andb_true_iff, IH. specialize (IHr r'). split.
      + intros [-> H]. apply IHr in H. congruence.
      + intros [= -> ->]. split; [reflexivity |]. apply IHr. reflexivity.
    - revert props0. induction props as [|[k a] r IHr]; intros [|[k' b] r']; simpl;
        try (split; [discriminate | congruence]); [split; reflexivity |].
      rewrite !andb_true_iff, IH, String.eqb_eq. specialize (IHr r'). split.
      + intros [[-> ->] H]. apply IHr in H. congruence.
      + intros [= -> -> ->]. repeat split. apply IHr. reflexivity. }
  intros x y. destruct (Value_eqb x y) eqn:E.
  - left. apply Heq, E.
  - right. intros H. apply Heq in H. congruence.
Defined.

(** ** JavaScript [Map]

    Entries in insertion order, each key once.  [set] on a key already
    present replaces its value where it stands; a new key goes to the
    end; iteration ([keys], [entries]) follows the list. *)

Module JSMap.
Section ops.
Context {K V : Type} `{EqDecision K}.

Fixpoint get (k : K) (m : list (K * V)) : option V :=
  match m with
  | [] => None
  | (k', v) :: rest => if decide (k' = k) then Some v else get k rest
  end.

Definition has (k : K) (m : list (K * V)) : bool :=
  match get k m with Some _ => true | None => false end.

Fixpoint set (k : K) (v : V) (m : list (K * V)) : list (K * V) :=
  match m with
  | [] => [(k, v)]
  | (k', v') :: rest =>
      if decide (k' = k) then (k', v) :: rest else (k', v') :: set k v rest
  end.

Fixpoint delete (k : K) (m : list (K * V)) : list (K * V) :=
  match m with
  | [] => []
  | (k', v) :: rest =>
      if decide (k' = k) then delete k rest else (k', v) :: delete k rest
  end.

Definition size (m : list (K * V)) : nat := length m.

Definition keys (m : list (K * V)) : list K := m.*1.
End ops.
End JSMap.

(** ** Connections and rooms *)

(** A value held in a field or used as a Map key: a primitive is compared
    by value, an object or array by identity.  [JSON.parse] builds fresh
    objects at every call; the only one that outlives the handler is a
    [roomId], which gets the next free address. *)
Inductive JSKey : Type :=
| KPrim (v : Value)
| KObj (addr : nat) (v : Value).

#[global] Instance JSKey_eq_dec : EqDecision JSKey.
Proof. solve_decision. Defined.

Definition key_value (k : JSKey) : Value :=
  match k with KPrim v | KObj _ v => v end.

Definition as_key (addr : nat) (v : Value) : JSKey :=
  match v with
  | VArray _ | VObject _ => KObj addr v
  | _ => KPrim v
  end.

Definition is_reference (v : Value) : bool :=
  match v with VArray _ | VObject _ => true | _ => false end.

Definition null : JSKey := KPrim VNull.

(** A WebSocket object is addressed by its handle, its index in the store. *)
Abbreviation handle := nat (only parsing).

(** [WebSocket.OPEN] *)
Definition OPEN : nat := 1.

Record WebSocket : Type := mkWebSocket {
  peerId : string;
  currentRoomId : JSKey;
  readyState : nat
}.

(** [rooms]: Map<roomId, Map<peerId, WebSocket>> *)
Record State : Type := mkState {
  sockets : list WebSocket;
  rooms : list (JSKey * list (string * handle));
  next_addr : nat
}.

Definition initial : State := mkState [] [] 0.

Definition with_rooms (r : list (JSKey * list (string * handle))) (s : State) : State :=
  mkState (sockets s) r (next_addr s).

Definition set_currentRoomId (k : JSKey) (ws : WebSocket) : WebSocket :=
  mkWebSocket (peerId ws) k (readyState ws).

Definition set_readyState (rs : nat) (ws : WebSocket) : WebSocket :=
  mkWebSocket (peerId ws) (currentRoomId ws) rs.

Definition update_socket (h : handle) (f : WebSocket → WebSocket) (s : State) : State :=
  mkState (alter f h (sockets s)) (rooms s) (next_addr s).

(** [client.readyState === WebSocket.OPEN] *)
Definition is_open (s : State) (client : handle) : bool :=
  match sockets s !! client with
  | Some ws => bool_decide (readyState ws = OPEN)
  | None => false
  end.

(** ** Outbound messages: each [x.send(JSON.stringify(obj))] is recorded
    as the pair of the handle [x] and the object [obj]. *)

Definition Sent : Type := handle * Value.

(** [send] does not throw: since version 7 of [ws] a message for a socket
    that is not open is dropped. *)
Definition send (to : handle) (obj : Value) : Sent := (to, obj).

Definition msg_your_peer_id (p : string) : Value :=
  VObject [("type", VString "your-peer-id"); ("peerId", VString p)].

Definition msg_error (message : string) : Value :=
  VObject [("type", VString "error"); ("message", VString message)].

Definition msg_existing_peers (roomId : Value) (peers : list string) : Value :=
  VObject [("type", VString "existing-peers"); ("roomId", roomId);
           ("peers", VArray (VString <$> peers))].

Definition msg_new_peer_joined (roomId : Value) (p : string) : Value :=
  VObject [("type", VString "new-peer-joined"); ("roomId", roomId);
           ("newPeerId", VString p)].

Definition msg_joined_room (roomId : Value) (p : string) : Value :=
  VObject [("type", VString "joined-room"); ("roomId", roomId);
           ("peerId", VString p)].

Definition msg_peer_left (roomId : Value) (p : string) : Value :=
  VObject [("type", VString "peer-left"); ("roomId", roomId);
           ("leavingPeerId", VString p);
           ("message", VString ("Peer " +:+ p +:+ " has disconnected."))].

(** [{...data, senderPeerId: peerId}]; [data] is an object wherever the
    relay case is reached (its [type] is one of three strings). *)
Definition msg_relay (data : Value) (p : string) : Value :=
  match data with
  | VObject props => VObject (set_prop "senderPeerId" (VString p) props)
  | _ => VObject [("senderPeerId", VString p)]
  end.

(** ** Handlers

    A handler either runs to its end or stops at an exception nothing
    catches (which ends the process); both carry the state and the
    messages sent up to that point. *)

Inductive Outcome : Type :=
| Completed (s : State) (out : list Sent)
| Uncaught (s : State) (out : list Sent).

Definition and_then (o : Outcome) (k : State → Outcome) : Outcome :=
  match o with
  | Completed s out =>
      match k s with
      | Completed s' out' => Completed s' (out ++ out')
      | Uncaught s' out' => Uncaught s' (out ++ out')
      end
  | Uncaught s out => Uncaught s out
  end.

(** A [console.log]/[console.warn] line with the values its template
    literal interpolates: nothing of it is kept but whether a conversion
    throws.  Interpolated [peerId]s and sizes are left out, they are
    strings and numbers. *)
Definition console (parts : list Value) : bool :=
  forallb (λ v, match ToString v with Some _ => true | None => false end) parts.

(** The guard [ws.currentRoomId && rooms.has(ws.currentRoomId)] followed by
    [rooms.get(ws.currentRoomId)], as [leaveRoom] and the relay case have it. *)
Definition current_room (ws : WebSocket) (s : State) : option (list (string * handle)) :=
  if ToBoolean (key_value (currentRoomId ws))
  then JSMap.get (currentRoomId ws) (rooms s)
  else None.

(** The loop over the remaining members of [leaveRoom]. *)
Definition notify_peer_left (s : State) (roomId : Value) (leaving : string)
    (roomClients : list (string * handle)) : list Sent :=
  flat_map (λ '(remainingPeerId, client),
              if is_open s client
              then [send client (msg_peer_left roomId leaving)]
              else []) roomClients.

(** [leaveRoom(ws)].  [roomClients] is the Map object held by [rooms], so
    the [delete] on it is already in the table when line 157 logs the
    room id. *)
Definition leaveRoom (h : handle) (s : State) : Outcome :=
  match sockets s !! h with
  | None => Completed s []
  | Some ws =>
      match current_room ws s with
      | None => Completed s []
      | Some roomClients =>
          let roomClients := JSMap.delete (peerId ws) roomClients in
          let s1 := with_rooms (JSMap.set (currentRoomId ws) roomClients (rooms s)) s in
          if negb (console [key_value (currentRoomId ws)]) then Uncaught s1 [] else
          let s2 := if bool_decide (JSMap.size roomClients = 0)
                    then with_rooms (JSMap.delete (currentRoomId ws) (rooms s1)) s1
                    else s1 in
          let out := if bool_decide (JSMap.size roomClients = 0)
                     then []
                     else notify_peer_left s1 (key_value (currentRoomId ws))
                            (peerId ws) roomClients in
          Completed (update_socket h (set_currentRoomId null) s2) out
      end
  end.

(** The loop of the join-room case over the members, the joiner included. *)
Definition notify_new_peer (s : State) (roomId : Value) (joiner : string)
    (roomClients : list (string * handle)) : list Sent :=
  flat_map (λ '(existingPeerId, client),
              if negb (bool_decide (existingPeerId = joiner)) && is_open s client
              then [send client (msg_new_peer_joined roomId joiner)]
              else []) roomClients.

(** Lines 62-96 of [case 'join-room']: the peer [p] of socket [h]
    enters the room [roomIdToJoin].  The room id was converted to text at
    line 46 already, so the log lines here cannot throw. *)
Definition enter_room (h : handle) (p : string) (roomIdToJoin : JSKey) (s : State)
  : Outcome :=
  let s := update_socket h (set_currentRoomId roomIdToJoin) s in
  let s := if JSMap.has roomIdToJoin (rooms s) then s
           else with_rooms (JSMap.set roomIdToJoin [] (rooms s)) s in
  let roomClients := default [] (JSMap.get roomIdToJoin (rooms s)) in
  let existing :=
    if bool_decide (0 < JSMap.size roomClients)
    then [send h (msg_existing_peers (key_value roomIdToJoin)
                    (JSMap.keys roomClients))]
    else [] in
  let roomClients := JSMap.set p h roomClients in
  let s := with_rooms (JSMap.set roomIdToJoin roomClients (rooms s)) s in
  Completed s
    (existing
       ++ notify_new_peer s (key_value roomIdToJoin) p roomClients
       ++ [send h (msg_joined_room (key_value roomIdToJoin) p)]).

(** A parsed [roomId] that is an object or array takes the next address. *)
Definition alloc (roomId : Value) (s : State) : State :=
  if is_reference roomId
  then mkState (sockets s) (rooms s) (S (next_addr s)) else s.

(** [case 'join-room'], lines 50-97; [ws] is the socket as the handler
    finds it. *)
Definition join_room (h : handle) (ws : WebSocket) (roomId : Value) (s : State)
  : Outcome :=
  if negb (ToBoolean roomId)
  then Completed s [send h (msg_error "Room ID is required.")]
  else
    let roomIdToJoin := as_key (next_addr s) roomId in
    let s := alloc roomId s in
    and_then
      (if ToBoolean (key_value (currentRoomId ws))
          && negb (bool_decide (currentRoomId ws = roomIdToJoin))
       then leaveRoom h s else Completed s [])
      (enter_room h (peerId ws) roomIdToJoin).

(** [clientsInRoom.get(targetPeerId)]: the keys are peerId strings, so
    only a string can be found. *)
Definition get_client (targetPeerId : Value) (clientsInRoom : list (string * handle))
  : option handle :=
  match targetPeerId with
  | VString t => JSMap.get t clientsInRoom
  | _ => None
  end.

(** [case 'offer': case 'answer': case 'ice-candidate'], lines 103-130. *)
Definition relay (h : handle) (ws : WebSocket) (data type : Value) (s : State)
  : Outcome :=
  match Get data "targetPeerId" with
  | None => Uncaught s []
  | Some targetPeerId =>
      if negb (ToBoolean targetPeerId)
      then Completed s
             [send h (msg_error "Signaling message requires a targetPeerId.")]
      else
        match current_room ws s with
        | Some clientsInRoom =>
            let targetClient := get_client targetPeerId clientsInRoom in
            match (if match targetClient with
                      | Some c => is_open s c
                      | None => false
                      end then targetClient else None) with
            | Some c =>
                let out := [send c (msg_relay data (peerId ws))] in
                if console [type; targetPeerId; key_value (currentRoomId ws)]
                then Completed s out else Uncaught s out
            | None =>
                match console [targetPeerId; key_value (currentRoomId ws); type],
                      ToString targetPeerId with
                | true, Some t =>
                    Completed s
                      [send h (msg_error ("Target peer " +:+ t
                                            +:+ " not found or not available."))]
                | _, _ => Uncaught s []
                end
            end
        | None =>
            Completed s
              [send h (msg_error "You are not in a valid room to send signaling data.")]
        end
  end.

Definition is_relay_type (type : Value) : bool :=
  bool_decide (type = VString "offer")
  || bool_decide (type = VString "answer")
  || bool_decide (type = VString "ice-candidate").

(** [ws.on('message', ...)]; [parsed] is what [JSON.parse(message)] gave,
    [None] when it threw. *)
Definition on_message (h : handle) (parsed : option Value) (s : State) : Outcome :=
  match sockets s !! h with
  | None => Completed s []
  | Some ws =>
      match parsed with
      | None => Completed s [send h (msg_error "Invalid JSON message.")]
      | Some data =>
          match Get data "type", Get data "roomId" with
          | Some type, Some roomId =>
              if negb (console [type; or_else roomId (VString "N/A")])
              then Uncaught s []
              else if bool_decide (type = VString "join-room")
              then join_room h ws roomId s
              else if is_relay_type type
              then relay h ws data type s
              else
                match ToString type with
                | Some t =>
                    Completed s
                      [send h (msg_error ("Unknown message type: " +:+ t))]
                | None => Uncaught s []
                end
          | _, _ => Uncaught s []
          end
      end
  end.

(** [wss.on('connection', ...)]; [uuid] is what [uuidv4()] returned. *)
Definition on_connection (uuid : string) (s : State) : Outcome :=
  Completed
    (mkState (sockets s ++ [mkWebSocket uuid null OPEN]) (rooms s) (next_addr s))
    [send (length (sockets s)) (msg_your_peer_id uuid)].

Definition on_close (h : handle) (s : State) : Outcome := leaveRoom h s.

Definition on_error (h : handle) (s : State) : Outcome := leaveRoom h s.

(** ** The server as a transition system *)

Inductive Event : Type :=
| EConnection (uuid : string)
| EMessage (h : handle) (parsed : option Value)
| EClose (h : handle)
| EError (h : handle)
| ETransport (h : handle) (rs : nat).

(** [ETransport] is the [ws] library changing a socket's [readyState];
    the other events are the handlers above. *)
Definition step (e : Event) (s : State) : Outcome :=
  match e with
  | EConnection uuid => on_connection uuid s
  | EMessage h parsed => on_message h parsed s
  | EClose h => on_close h s
  | EError h => on_error h s
  | ETransport h rs => Completed (update_socket h (set_readyState rs) s) []
  end.

(** [uuidv4()] is taken to return an identifier no connection had before. *)
Definition event_ok (e : Event) (s : State) : bool :=
  match e with
  | EConnection uuid => bool_decide (uuid ∉ peerId <$> sockets s)
  | _ => true
  end.

(** The state and the messages after a sequence of events; [None] when an
    exception ended the process or an identifier was handed out twice. *)
Fixpoint run (es : list Event) (s : State) : option (State * list Sent) :=
  match es with
  | [] => Some (s, [])
  | e :: rest =>
      if event_ok e s then
        match step e s with
        | Completed s' out =>
            match run rest s' with
            | Some (s'', out') => Some (s'', out ++ out')
            | None => None
            end
        | Uncaught _ _ => None
        end
      else None
  end.

Definition reachable (s : State) : Prop :=
  ∃ es out, run es initial = Some (s, out).

(** ** Notions the statements use *)

(** The invariant of the room table and the sockets. *)
Record Inv (s : State) : Prop := {
  (* no two connections share a peerId *)
  inv_peerIds : NoDup (peerId <$> sockets s);
  inv_rooms : NoDup (rooms s).*1;
  (* a room has a usable id and at least one member; a member entry leads
     to the connection with that peerId, whose currentRoomId is the room *)
  inv_room : ∀ rid members,
    JSMap.get rid (rooms s) = Some members →
    ToBoolean (key_value rid) = true ∧ members ≠ [] ∧ NoDup members.*1 ∧
    ∀ p c, (p, c) ∈ members →
           ∃ ws, sockets s !! c = Some ws ∧ peerId ws = p ∧ currentRoomId ws = rid;
  (* a connection's currentRoomId is null or the room that holds it *)
  inv_socket : ∀ h ws,
    sockets s !! h = Some ws →
    console [key_value (currentRoomId ws)] = true ∧
    (currentRoomId ws = null ∨
     (ToBoolean (key_value (currentRoomId ws)) = true ∧
      ∃ members, JSMap.get (currentRoomId ws) (rooms s) = Some members ∧
                 JSMap.get (peerId ws) members = Some h))
}.

(** The addresses held by sockets are below the next free one. *)
Definition addr_ok (s : State) : Prop :=
  ∀ h ws a v,
    sockets s !! h = Some ws → currentRoomId ws = KObj a v → a < next_addr s.

(** The room table after the peer [p] has left the room [rid]. *)
Definition left_rooms (rid : JSKey) (p : string) (members : list (string * handle))
    (r : list (JSKey * list (string * handle))) : list (JSKey * list (string * handle)) :=
  if bool_decide (JSMap.size (JSMap.delete p members) = 0)
  then JSMap.delete rid r
  else JSMap.set rid (JSMap.delete p members) r.

(** The state [leaveRoom] leaves when the socket [h], as [ws], is in the
    room with the member map [members]. *)
Definition left_state (h : handle) (ws : WebSocket) (members : list (string * handle))
    (s : State) : State :=
  update_socket h (set_currentRoomId null)
    (with_rooms (left_rooms (currentRoomId ws) (peerId ws) members (rooms s)) s).

(** What [leaveRoom] sends then. *)
Definition left_sent (ws : WebSocket) (members : list (string * handle))
    (s : State) : list Sent :=
  if bool_decide (JSMap.size (JSMap.delete (peerId ws) members) = 0)
  then []
  else notify_peer_left s (key_value (currentRoomId ws)) (peerId ws)
         (JSMap.delete (peerId ws) members).

(** The member map of room [k] once [p] has entered it, the state and the
    messages of [enter_room]. *)
Definition entered_members (h : handle) (p : string) (k : JSKey) (s : State)
  : list (string * handle) :=
  JSMap.set p h (default [] (JSMap.get k (rooms s))).

Definition entered_state (h : handle) (p : string) (k : JSKey) (s : State) : State :=
  with_rooms (JSMap.set k (entered_members h p k s) (rooms s))
    (update_socket h (set_currentRoomId k) s).

Definition entered_sent (h : handle) (p : string) (k : JSKey) (s : State) : list Sent :=
  (if bool_decide (0 < JSMap.size (default [] (JSMap.get k (rooms s))))
   then [send h (msg_existing_peers (key_value k)
                   (JSMap.keys (default [] (JSMap.get k (rooms s)))))]
   else [])
  ++ notify_new_peer (update_socket h (set_currentRoomId k) s) (key_value k) p
       (entered_members h p k s)
  ++ [send h (msg_joined_room (key_value k) p)].

Definition outcome_state (o : Outcome) : State :=
  match o with Completed s _ | Uncaught s _ => s end.

Definition outcome_sent (o : Outcome) : list Sent :=
  match o with Completed _ out | Uncaught _ out => out end.

(** [{type: 'join-room', roomId: r}] *)
Definition join_msg (r : string) : Value :=
  VObject [("type", VString "join-room"); ("roomId", VString r)].

(** The events by which the peer of socket [h] leaves its room: its close,
    its error, and its join-room for another room id. *)
Definition leaving_event (h : handle) (ws : WebSocket) (s : State) (e : Event) : Prop :=
  e = EClose h ∨ e = EError h ∨
  ∃ data roomId,
    e = EMessage h (Some data) ∧
    Get data "type" = Some (VString "join-room") ∧
    Get data "roomId" = Some roomId ∧
    ToBoolean roomId = true ∧
    as_key (next_addr s) roomId ≠ currentRoomId ws.

(** Sample states: X alone in ["r1"]; X and Y in ["r1"]; X, Y and Z in
    ["r1"] with the socket of Z closed (readyState 3). *)
Definition demo_X_in_r1 : State :=
  mkState [mkWebSocket "X" (KPrim (VString "r1")) OPEN]
          [(KPrim (VString "r1"), [("X", 0)])] 0.

Definition demo_XY_in_r1 : State :=
  mkState [mkWebSocket "X" (KPrim (VString "r1")) OPEN;
           mkWebSocket "Y" (KPrim (VString "r1")) OPEN]
          [(KPrim (VString "r1"), [("X", 0); ("Y", 1)])] 0.

Definition demo_XYZ_in_r1 : State :=
  mkState [mkWebSocket "X" (KPrim (VString "r1")) OPEN;
           mkWebSocket "Y" (KPrim (VString "r1")) OPEN;
           mkWebSocket "Z" (KPrim (VString "r1")) 3]
          [(KPrim (VString "r1"), [("X", 0); ("Y", 1); ("Z", 2)])] 0.

(** [{type: 'offer', targetPeerId: 'Y', sdp: 'v=0', senderPeerId: 'Z'}] *)
Definition demo_offer : Value :=
  VObject [("type", VString "offer"); ("targetPeerId", VString "Y");
           ("sdp", VString "v=0"); ("senderPeerId", VString "Z")].

(** [{toString: 0}]: an object that no template literal can print. *)
Definition unprintable : Value := VObject [("toString", VNumber "0")].

(** The messages the handler answers with an error alone: they do not
    parse, or their type is none of the four, or they are a join-room with
    a falsy roomId or a relay message with a falsy targetPeerId. *)
Definition rejected (parsed : option Value) : Prop :=
  match parsed with
  | None => True
  | Some data =>
      ∃ type,
        Get data "type" = Some type ∧
        ((type ≠ VString "join-room" ∧ is_relay_type type = false) ∨
         (type = VString "join-room" ∧
          ∃ roomId, Get data "roomId" = Some roomId ∧ ToBoolean roomId = false) ∨
         (is_relay_type type = true ∧
          ∃ t, Get data "targetPeerId" = Some t ∧ ToBoolean t = false))
  end.

(** The socket an event belongs to; for a connection, the one it creates. *)
Definition event_handle (e : Event) (s : State) : handle :=
  match e with
  | EConnection _ => length (sockets s)
  | EMessage h _ | EClose h | EError h | ETransport h _ => h
  end.

(** The messages of [out] sent to the socket [h], in order. *)
Definition inbox (h : handle) (out : list Sent) : list Sent :=
  filter (λ x, x.1 = h) out.

(** * Properties *)

(** ** Facts on the Map operations *)

Section jsmap_facts.
Context {K V : Type} `{EqDecision K}.
Implicit Types (k : K) (v : V) (m : list (K * V)).

Lemma jsmap_get_elem k v m : JSMap.get k m = Some v → (k, v) ∈ m.
Proof.
  induction m as [|[k' v'] m IH]; simpl; [discriminate |].
  destruct (decide (k' = k)) as [->|].
  - intros [= ->]. left.
  - intros Hg. right. auto.
Qed.

Lemma jsmap_get_None k m : JSMap.get k m = None ↔ k ∉ m.*1.
Proof.
  induction m as [|[k' v'] m IH]; simpl.
  - split; [intros _; apply not_elem_of_nil | reflexivity].
  - rewrite not_elem_of_cons. destruct (decide (k' = k)) as [->|Hne].
    + split; [discriminate | intros [Hk _]; congruence].
    + rewrite IH. split; [intros Hk; split; [congruence | exact Hk] | intros [_ Hk]; exact Hk].
Qed.

Lemma jsmap_elem_get k v m : NoDup m.*1 → (k, v) ∈ m → JSMap.get k m = Some v.
Proof.
  induction m as [|[k' v'] m IH]; simpl; intros Hnd Hin.
  - apply elem_of_nil in Hin. contradiction.
  - apply NoDup_cons in Hnd as [Hk' Hnd].
    apply elem_of_cons in Hin as [[= <- <-]|Hin].
    + rewrite decide_True; reflexivity.
    + destruct (decide (k' = k)) as [->|]; [|auto].
      exfalso. apply Hk'. apply (list_elem_of_fmap_2 fst _ (k, v)), Hin.
Qed.

Lemma jsmap_get_set_eq k v m : JSMap.get k (JSMap.set k v m) = Some v.
Proof.
  induction m as [|[k' v'] m IH]; simpl.
  - rewrite decide_True; reflexivity.
  - destruct (decide (k' = k)) as [->|Hne]; simpl.
    + rewrite decide_True; reflexivity.
    + rewrite decide_False by exact Hne. exact IH.
Qed.

Lemma jsmap_get_set_ne k k' v m :
  k ≠ k' → JSMap.get k' (JSMap.set k v m) = JSMap.get k' m.
Proof.
  intros Hne. induction m as [|[k0 v0] m IH]; simpl.
  - rewrite decide_False by exact Hne. reflexivity.
  - destruct (decide (k0 = k)) as [->|Hne0]; simpl.
    + rewrite !decide_False by exact Hne. reflexivity.
    + rewrite IH. reflexivity.
Qed.

Lemma jsmap_get_delete_eq k m : JSMap.get k (JSMap.delete k m) = None.
Proof.
  induction m as [|[k' v'] m IH]; simpl; [reflexivity |].
  destruct (decide (k' = k)) as [->|Hne]; simpl; [exact IH |].
  rewrite decide_False by exact Hne. exact IH.
Qed.

Lemma jsmap_get_delete_ne k k' m :
  k ≠ k' → JSMap.get k' (JSMap.delete k m) = JSMap.get k' m.
Proof.
  intros Hne. induction m as [|[k0 v0] m IH]; simpl; [reflexivity |].
  destruct (decide (k0 = k)) as [->|Hne0]; simpl.
  - rewrite decide_False by exact Hne. exact IH.
  - rewrite IH. reflexivity.
Qed.

Lemma jsmap_elem_delete k k' v m :
  (k', v) ∈ JSMap.delete k m ↔ k' ≠ k ∧ (k', v) ∈ m.
Proof.
  induction m as [|[k0 v0] m IH]; simpl.
  - split; [intros Hin; apply elem_of_nil in Hin; contradiction
           | intros [_ Hin]; exact Hin].
  - destruct (decide (k0 = k)) as [->|Hne0].
    + rewrite IH, elem_of_cons. split.
      * intros [Hk Hin]. auto.
      * intros [Hk [[= ? ?]|Hin]]; [congruence | auto].
    + rewrite !elem_of_cons, IH. split.
      * intros [[= -> ->]|[Hk Hin]]; auto.
      * intros [Hk [Heq|Hin]]; auto.
Qed.

Lemma jsmap_elem_set k v k' v' m :
  NoDup m.*1 →
  (k', v') ∈ JSMap.set k v m ↔
  (k' = k ∧ v' = v) ∨ (k' ≠ k ∧ (k', v') ∈ m).
Proof.
  induction m as [|[k0 v0] m IH]; simpl; intros Hnd.
  - rewrite list_elem_of_singleton. split.
    + intros [= -> ->]. auto.
    + intros [[-> ->]|[_ Hin]]; [reflexivity |].
      apply elem_of_nil in Hin. contradiction.
  - apply NoDup_cons in Hnd as [Hk0 Hnd].
    destruct (decide (k0 = k)) as [->|Hne0]; rewrite !elem_of_cons.
    + split.
      * intros [[= -> ->]|Hin]; [auto |].
        right. split; [|auto]. intros ->. apply Hk0.
        apply (list_elem_of_fmap_2 fst _ (k, v')), Hin.
      * intros [[-> ->]|[Hk [[= ? ?]|Hin]]]; auto. congruence.
    + rewrite (IH Hnd). split.
      * intros [[= -> ->]|[[-> ->]|[Hk Hin]]]; auto.
      * intros [[-> ->]|[Hk [[= -> ->]|Hin]]]; auto.
Qed.

Lemma jsmap_keys_set k v k' m :
  k' ∈ (JSMap.set k v m).*1 ↔ k' = k ∨ k' ∈ m.*1.
Proof.
  induction m as [|[k0 v0] m IH]; simpl.
  - rewrite list_elem_of_singleton. split; [auto |].
    intros [->|Hin]; [reflexivity |]. apply elem_of_nil in Hin. contradiction.
  - destruct (decide (k0 = k)) as [->|Hne0]; simpl; rewrite !elem_of_cons.
    + split; [intros [->|?]; auto | intros [->|[->|?]]; auto].
    + rewrite IH. split; [intros [->|[->|?]]; auto | intros [->|[->|?]]; auto].
Qed.

Lemma jsmap_keys_delete k k' m :
  k' ∈ (JSMap.delete k m).*1 ↔ k' ≠ k ∧ k' ∈ m.*1.
Proof.
  induction m as [|[k0 v0] m IH]; simpl.
  - split; [intros Hin; apply elem_of_nil in Hin; contradiction
           | intros [_ Hin]; exact Hin].
  - destruct (decide (k0 = k)) as [->|Hne0]; simpl; rewrite ?elem_of_cons, IH.
    + split; [intros [? ?]; auto | intros [? [->|?]]; [contradiction | auto]].
    + split; [intros [->|[? ?]]; auto | intros [? [->|?]]; auto].
Qed.

Lemma jsmap_NoDup_set k v m : NoDup m.*1 → NoDup (JSMap.set k v m).*1.
Proof.
  induction m as [|[k0 v0] m IH]; simpl; intros Hnd.
  - apply NoDup_singleton.
  - apply NoDup_cons in Hnd as [Hk0 Hnd].
    destruct (decide (k0 = k)) as [->|Hne0]; simpl; apply NoDup_cons.
    + auto.
    + split; [|auto]. rewrite jsmap_keys_set. intros [?|?]; auto.
Qed.

Lemma jsmap_NoDup_delete k m : NoDup m.*1 → NoDup (JSMap.delete k m).*1.
Proof.
  induction m as [|[k0 v0] m IH]; simpl; intros Hnd; [exact Hnd |].
  apply NoDup_cons in Hnd as [Hk0 Hnd].
  destruct (decide (k0 = k)) as [->|Hne0]; simpl; [auto |].
  apply NoDup_cons. split; [|auto].
  rewrite jsmap_keys_delete. intros [_ ?]. auto.
Qed.

Lemma jsmap_delete_set k v m :
  JSMap.delete k (JSMap.set k v m) = JSMap.delete k m.
Proof.
  induction m as [|[k0 v0] m IH]; simpl.
  - rewrite decide_True; reflexivity.
  - destruct (decide (k0 = k)) as [->|Hne0]; simpl.
    + rewrite decide_True; reflexivity.
    + rewrite decide_False by exact Hne0. rewrite IH. reflexivity.
Qed.

Lemma jsmap_set_set k v v' m :
  JSMap.set k v (JSMap.set k v' m) = JSMap.set k v m.
Proof.
  induction m as [|[k0 v0] m IH]; simpl.
  - rewrite decide_True; reflexivity.
  - destruct (decide (k0 = k)) as [->|Hne0]; simpl.
    + rewrite decide_True; reflexivity.
    + rewrite decide_False by exact Hne0. rewrite IH. reflexivity.
Qed.

Lemma jsmap_set_not_nil k v m : JSMap.set k v m ≠ [].
Proof.
  destruct m as [|[k0 v0] m]; simpl; [discriminate |].
  destruct (decide (k0 = k)); discriminate.
Qed.

Lemma jsmap_keys_get k m : k ∈ JSMap.keys m ↔ ∃ v, JSMap.get k m = Some v.
Proof.
  unfold JSMap.keys. destruct (JSMap.get k m) as [v|] eqn:E.
  - split; [eauto |]. intros _.
    apply (list_elem_of_fmap_2 fst _ (k, v)), jsmap_get_elem, E.
  - apply jsmap_get_None in E. split; [contradiction | intros [v [=]]].
Qed.
End jsmap_facts.

(** ** The invariant of the room table *)

Lemma peerId_alter f h (l : list WebSocket) :
  (∀ ws, peerId (f ws) = peerId ws) → peerId <$> alter f h l = peerId <$> l.
Proof.
  intros Hf. revert h. induction l as [|x l IH]; intros [|h]; csimpl; [done..| |].
  - by rewrite Hf.
  - f_equal. apply IH.
Qed.

Lemma peerId_inj s h1 h2 ws1 ws2 :
  NoDup (peerId <$> sockets s) →
  sockets s !! h1 = Some ws1 → sockets s !! h2 = Some ws2 →
  peerId ws1 = peerId ws2 → h1 = h2.
Proof.
  intros Hnd H1 H2 Heq.
  eapply (proj1 (NoDup_alt _) Hnd h1 h2 (peerId ws1)).
  - rewrite list_lookup_fmap, H1. reflexivity.
  - rewrite list_lookup_fmap, H2, Heq. reflexivity.
Qed.

(** ** leaveRoom on a state that satisfies the invariant *)

Lemma leaveRoom_no_room s h ws :
  sockets s !! h = Some ws → current_room ws s = None →
  leaveRoom h s = Completed s [].
Proof. intros Hws Hroom. unfold leaveRoom. rewrite Hws, Hroom. reflexivity. Qed.

Lemma leaveRoom_in_room s h ws members :
  sockets s !! h = Some ws → current_room ws s = Some members →
  console [key_value (currentRoomId ws)] = true →
  leaveRoom h s = Completed (left_state h ws members s) (left_sent ws members s).
Proof.
  intros Hws Hroom Hlog. unfold leaveRoom. rewrite Hws, Hroom, Hlog. simpl.
  unfold left_state, left_sent, left_rooms.
  case_bool_decide; simpl.
  - rewrite jsmap_delete_set. reflexivity.
  - reflexivity.
Qed.

Lemma current_room_Some ws s members :
  current_room ws s = Some members ↔
  ToBoolean (key_value (currentRoomId ws)) = true ∧
  JSMap.get (currentRoomId ws) (rooms s) = Some members.
Proof.
  unfold current_room. destruct (ToBoolean _); split; try done.
  - intros [? ?]; done.
  - intros [? ?]; done.
Qed.

Lemma get_left_rooms rid p members r rid' :
  JSMap.get rid' (left_rooms rid p members r) =
  if decide (rid = rid')
  then (if bool_decide (JSMap.size (JSMap.delete p members) = 0)
        then None else Some (JSMap.delete p members))
  else JSMap.get rid' r.
Proof.
  unfold left_rooms. destruct (decide (rid = rid')) as [<-|Hne]; case_bool_decide.
  - apply jsmap_get_delete_eq.
  - apply jsmap_get_set_eq.
  - apply jsmap_get_delete_ne, Hne.
  - apply jsmap_get_set_ne, Hne.
Qed.

Lemma lookup_update_socket s h f h' :
  sockets (update_socket h f s) !! h' =
  if decide (h = h') then f <$> sockets s !! h' else sockets s !! h'.
Proof.
  simpl. destruct (decide (h = h')) as [<-|Hne].
  - apply list_lookup_alter_eq.
  - apply list_lookup_alter_ne, Hne.
Qed.

Lemma ToBoolean_null : ToBoolean (key_value null) = false.
Proof. reflexivity. Qed.

Lemma Inv_left s h ws members :
  Inv s → sockets s !! h = Some ws → current_room ws s = Some members →
  Inv (left_state h ws members s).
Proof.
  intros [Hids Hrooms Hroom Hsock] Hws Hcur.
  apply current_room_Some in Hcur as [Htruthy Hget].
  assert (Hmine : JSMap.get (peerId ws) members = Some h).
  { destruct (Hsock h ws Hws) as [_ [Hnull|[_ (m & Hm & Hp)]]].
    - rewrite Hnull in Htruthy. discriminate.
    - congruence. }
  destruct (Hroom _ _ Hget) as (_ & _ & Hnd & Hmem).
  split.
  - simpl. rewrite peerId_alter; [exact Hids | reflexivity].
  - simpl. unfold left_rooms. case_bool_decide.
    + apply jsmap_NoDup_delete, Hrooms.
    + apply jsmap_NoDup_set, Hrooms.
  - intros rid' members'. unfold left_state. simpl rooms.
    rewrite get_left_rooms. intros Hget'.
    destruct (decide (currentRoomId ws = rid')) as [<-|Hne].
    + case_bool_decide as Hsz; [discriminate |]. injection Hget' as <-.
      split; [exact Htruthy |]. split; [intros E; apply Hsz; rewrite E; reflexivity |].
      split; [apply jsmap_NoDup_delete, Hnd |].
      intros p c [Hp Hin]%jsmap_elem_delete.
      destruct (Hmem p c Hin) as (ws' & Hws' & Hpid & Hrid).
      exists ws'. rewrite lookup_update_socket. simpl sockets.
      rewrite decide_False; [done |]. intros <-. congruence.
    + destruct (Hroom _ _ Hget') as (Ht & Hne' & Hnd' & Hmem').
      split; [exact Ht |]. split; [exact Hne' |]. split; [exact Hnd' |].
      intros p c Hin. destruct (Hmem' p c Hin) as (ws' & Hws' & Hpid & Hrid).
      exists ws'. rewrite lookup_update_socket. simpl sockets.
      rewrite decide_False; [done |]. intros <-. congruence.
  - intros h' ws'. unfold left_state. rewrite lookup_update_socket. simpl sockets.
    destruct (decide (h = h')) as [<-|Hne].
    + rewrite Hws. intros [= <-]. simpl. split; [reflexivity | left; reflexivity].
    + intros Hws'. destruct (Hsock h' ws' Hws') as [Hlog Hor].
      split; [exact Hlog |]. destruct Hor as [Hnull|(Ht & m & Hm & Hp)]; [left; exact Hnull |].
      right. split; [exact Ht |]. simpl rooms. rewrite get_left_rooms.
      destruct (decide (currentRoomId ws = currentRoomId ws')) as [Heq|Hneq].
      * rewrite <- Heq in Hm. assert (m = members) as -> by congruence.
        assert (Hpne : peerId ws' ≠ peerId ws).
        { intros Heq'. apply Hne. symmetry. eapply peerId_inj; eauto. }
        assert (Hin : (peerId ws', h') ∈ JSMap.delete (peerId ws) members).
        { apply jsmap_elem_delete. split; [exact Hpne |]. apply jsmap_get_elem, Hp. }
        case_bool_decide as Hsz.
        -- destruct (JSMap.delete (peerId ws) members); [|discriminate].
           apply elem_of_nil in Hin. contradiction.
        -- eexists. split; [reflexivity |].
           rewrite jsmap_get_delete_ne by (intros E; apply Hpne; symmetry; exact E).
           exact Hp.
      * exists m. split; [exact Hm | exact Hp].
Qed.

(** ** Entering a room *)

Lemma enter_room_eq h p k s :
  enter_room h p k s = Completed (entered_state h p k s) (entered_sent h p k s).
Proof.
  unfold enter_room, entered_state, entered_sent, entered_members.
  simpl rooms. unfold JSMap.has.
  destruct (JSMap.get k (rooms s)) as [m|] eqn:Hget; simpl.
  - rewrite Hget. reflexivity.
  - rewrite jsmap_get_set_eq, jsmap_set_set. reflexivity.
Qed.

Lemma Inv_entered s h ws k :
  Inv s → sockets s !! h = Some ws →
  currentRoomId ws = null ∨ currentRoomId ws = k →
  ToBoolean (key_value k) = true → console [key_value k] = true →
  Inv (entered_state h (peerId ws) k s).
Proof.
  intros [Hids Hrooms Hroom Hsock] Hws Hcur Htruthy Hlog.
  set (m0 := default [] (JSMap.get k (rooms s))).
  assert (Hm0 : m0 = [] ∨ JSMap.get k (rooms s) = Some m0).
  { unfold m0. destruct (JSMap.get k (rooms s)); simpl; auto. }
  assert (Hnd0 : NoDup m0.*1).
  { destruct Hm0 as [->|Hg]; [apply NoDup_nil_2 | apply (Hroom _ _ Hg)]. }
  assert (Hmem0 : ∀ q c, (q, c) ∈ m0 →
            ∃ ws', sockets s !! c = Some ws' ∧ peerId ws' = q ∧ currentRoomId ws' = k).
  { destruct Hm0 as [->|Hg]; [intros q c Hin; apply elem_of_nil in Hin; contradiction |].
    apply (Hroom _ _ Hg). }
  assert (Hother : ∀ h' ws', h' ≠ h → sockets s !! h' = Some ws' → peerId ws' ≠ peerId ws).
  { intros h' ws' Hne Hws' Heq. apply Hne. eapply peerId_inj; eauto. }
  split.
  - simpl. rewrite peerId_alter; [exact Hids | reflexivity].
  - simpl. apply jsmap_NoDup_set, Hrooms.
  - intros rid' members'. unfold entered_state. simpl rooms.
    destruct (decide (k = rid')) as [<-|Hne].
    + rewrite jsmap_get_set_eq. intros [= <-]. fold m0.
      split; [exact Htruthy |]. split; [apply jsmap_set_not_nil |].
      split; [apply jsmap_NoDup_set, Hnd0 |].
      intros q c Hin. unfold entered_members in Hin. fold m0 in Hin.
      apply (jsmap_elem_set _ _ _ _ _ Hnd0) in Hin as [[-> ->]|[Hq Hin]].
      * exists (set_currentRoomId k ws). simpl sockets.
        rewrite list_lookup_alter_eq, Hws. done.
      * destruct (Hmem0 q c Hin) as (ws' & Hws' & Hpid & Hrid).
        exists ws'. simpl sockets. rewrite list_lookup_alter_ne; [done |].
        intros <-. congruence.
    + rewrite jsmap_get_set_ne by exact Hne. intros Hget'.
      destruct (Hroom _ _ Hget') as (Ht & Hne' & Hnd' & Hmem').
      split; [exact Ht |]. split; [exact Hne' |]. split; [exact Hnd' |].
      intros q c Hin. destruct (Hmem' q c Hin) as (ws' & Hws' & Hpid & Hrid).
      exists ws'. simpl sockets. rewrite list_lookup_alter_ne; [done |].
      intros <-. assert (ws' = ws) as -> by congruence.
      destruct Hcur as [Hnull|Hk]; [|congruence].
      rewrite <- Hrid, Hnull in Ht. discriminate.
  - intros h' ws'. unfold entered_state. simpl sockets. simpl rooms.
    destruct (decide (h = h')) as [<-|Hne].
    + rewrite list_lookup_alter_eq, Hws. intros [= <-]. simpl.
      split; [exact Hlog |]. right. split; [exact Htruthy |].
      eexists. split; [apply jsmap_get_set_eq |]. apply jsmap_get_set_eq.
    + rewrite list_lookup_alter_ne by exact Hne. intros Hws'.
      destruct (Hsock h' ws' Hws') as [Hlog' Hor].
      split; [exact Hlog' |]. destruct Hor as [Hnull|(Ht & m & Hm & Hp)]; [left; exact Hnull |].
      right. split; [exact Ht |].
      destruct (decide (k = currentRoomId ws')) as [Heq|Hneq].
      * rewrite <- Heq. eexists. split; [apply jsmap_get_set_eq |].
        unfold entered_members. rewrite jsmap_get_set_ne.
        -- rewrite <- Heq in Hm. rewrite Hm. exact Hp.
        -- intros E. eapply Hother; eauto.
      * exists m. split; [|exact Hp]. rewrite jsmap_get_set_ne by exact Hneq. exact Hm.
Qed.

(** ** Every handler keeps the invariant *)

Lemma Inv_alloc roomId s : Inv s → Inv (alloc roomId s).
Proof.
  unfold alloc. destruct (is_reference roomId); [|done].
  intros [H1 H2 H3 H4]. split; assumption.
Qed.

Lemma key_value_as_key a v : key_value (as_key a v) = v.
Proof. destruct v; reflexivity. Qed.

Lemma console_cons v vs :
  console (v :: vs) = true ↔ (∃ t, ToString v = Some t) ∧ console vs = true.
Proof.
  simpl. destruct (ToString v) as [t|]; simpl.
  - split; [eauto | intros [_ ?]; done].
  - split; [discriminate | intros [[t [=]] _]].
Qed.

Lemma console_one v : console [v] = true ↔ ∃ t, ToString v = Some t.
Proof. rewrite console_cons. simpl. split; [intros [? _]; done | auto]. Qed.

(** The outcome of [leaveRoom] on a state that satisfies the invariant. *)
Lemma leaveRoom_Inv s h :
  Inv s →
  ∃ s' out, leaveRoom h s = Completed s' out ∧ Inv s' ∧
            next_addr s' = next_addr s ∧
            ∀ ws, sockets s !! h = Some ws →
                  ∃ ws', sockets s' !! h = Some ws' ∧ peerId ws' = peerId ws ∧
                         currentRoomId ws' = null.
Proof.
  intros HI. destruct (sockets s !! h) as [ws|] eqn:Hws.
  - destruct (current_room ws s) as [members|] eqn:Hroom.
    + exists (left_state h ws members s), (left_sent ws members s).
      split; [apply leaveRoom_in_room; auto; apply (inv_socket s HI h ws Hws) |].
      split; [apply Inv_left; auto |]. split; [reflexivity |].
      intros ws0 [= <-]. exists (set_currentRoomId null ws).
      unfold left_state. rewrite lookup_update_socket, decide_True by reflexivity.
      simpl sockets. rewrite Hws. done.
    + exists s, []. split; [apply leaveRoom_no_room with ws; auto |].
      split; [exact HI |]. split; [reflexivity |].
      intros ws0 [= <-]. exists ws. split; [exact Hws |]. split; [reflexivity |].
      destruct (inv_socket s HI h ws Hws) as [_ [Hnull|(Ht & m & Hm & _)]]; [exact Hnull |].
      unfold current_room in Hroom. rewrite Ht, Hm in Hroom. discriminate.
  - exists s, []. unfold leaveRoom. rewrite Hws. done.
Qed.

Lemma join_room_Inv s h ws roomId :
  Inv s → sockets s !! h = Some ws →
  console [roomId] = true →
  ∃ s' out, join_room h ws roomId s = Completed s' out ∧ Inv s'.
Proof.
  intros HI Hws Hlog. unfold join_room.
  destruct (ToBoolean roomId) eqn:Htruthy; simpl; [|eauto].
  set (k := as_key (next_addr s) roomId).
  assert (HIa : Inv (alloc roomId s)) by apply Inv_alloc, HI.
  assert (Hwsa : sockets (alloc roomId s) !! h = Some ws).
  { unfold alloc. destruct (is_reference roomId); exact Hws. }
  assert (Hk1 : ToBoolean (key_value k) = true) by (unfold k; rewrite key_value_as_key; done).
  assert (Hk2 : console [key_value k] = true) by (unfold k; rewrite key_value_as_key; done).
  destruct (ToBoolean (key_value (currentRoomId ws))
            && negb (bool_decide (currentRoomId ws = k))) eqn:Hsw.
  - destruct (leaveRoom_Inv _ h HIa) as (s1 & out1 & Hl & HI1 & _ & Hws1).
    destruct (Hws1 ws Hwsa) as (ws1 & Hws1' & Hp1 & Hc1).
    rewrite Hl. unfold and_then. rewrite enter_room_eq.
    eexists _, _. split; [reflexivity |].
    rewrite <- Hp1. apply Inv_entered; auto.
  - unfold and_then. rewrite enter_room_eq. eexists _, _. split; [reflexivity |].
    apply Inv_entered; auto.
    apply andb_false_iff in Hsw as [Hf|Hf].
    + left. destruct (inv_socket _ HIa h ws Hwsa) as [_ [?|[Ht _]]]; [done | congruence].
    + right. apply negb_false_iff, bool_decide_eq_true in Hf. exact Hf.
Qed.

(** The relay case never changes the state. *)
Lemma relay_state h ws data type s : outcome_state (relay h ws data type s) = s.
Proof.
  unfold relay. destruct (Get data "targetPeerId") as [t|]; [|reflexivity].
  destruct (negb (ToBoolean t)); [reflexivity |].
  destruct (current_room ws s) as [m|]; [|reflexivity].
  destruct (get_client t m) as [c|]; [destruct (is_open s c) |];
    repeat (match goal with |- context [match ?x with _ => _ end] => destruct x end;
            try reflexivity).
Qed.

Lemma on_message_Inv s h parsed s' out :
  Inv s → on_message h parsed s = Completed s' out → Inv s'.
Proof.
  intros HI. unfold on_message.
  destruct (sockets s !! h) as [ws|] eqn:Hws; [|intros [= <- _]; exact HI].
  destruct parsed as [data|]; [|intros [= <- _]; exact HI].
  destruct (Get data "type") as [type|]; [|discriminate].
  destruct (Get data "roomId") as [roomId|]; [|discriminate].
  destruct (console [type; or_else roomId (VString "N/A")]) eqn:Hlog; [|discriminate].
  simpl negb. cbv iota.
  case_bool_decide as Hjoin.
  - destruct (ToBoolean roomId) eqn:Htruthy.
    + assert (Hlog' : console [roomId] = true).
      { apply console_cons in Hlog as [_ Hlog]. unfold or_else in Hlog.
        rewrite Htruthy in Hlog. exact Hlog. }
      destruct (join_room_Inv s h ws roomId HI Hws Hlog') as (s1 & out1 & Hj & HI1).
      rewrite Hj. intros [= <- _]. exact HI1.
    + unfold join_room. rewrite Htruthy. simpl. intros [= <- _]. exact HI.
  - destruct (is_relay_type type).
    + intros Hr. pose proof (relay_state h ws data type s) as Hs.
      rewrite Hr in Hs. simpl in Hs. subst s'. exact HI.
    + destruct (ToString type); [intros [= <- _]; exact HI | discriminate].
Qed.

Lemma on_connection_Inv s uuid :
  uuid ∉ peerId <$> sockets s → Inv s →
  Inv (mkState (sockets s ++ [mkWebSocket uuid null OPEN]) (rooms s) (next_addr s)).
Proof.
  intros Hfresh [Hids Hrooms Hroom Hsock]. split; simpl.
  - rewrite fmap_app. apply NoDup_app. split; [exact Hids |].
    split; [|apply NoDup_singleton].
    intros x Hx Hx'. apply list_elem_of_singleton in Hx'. simpl in Hx'. subst x. auto.
  - exact Hrooms.
  - intros rid members Hget. destruct (Hroom _ _ Hget) as (Ht & Hne & Hnd & Hmem).
    split; [exact Ht |]. split; [exact Hne |]. split; [exact Hnd |].
    intros p c Hin. destruct (Hmem p c Hin) as (ws & Hws & Hp & Hc).
    exists ws. split; [|done]. apply lookup_app_l_Some, Hws.
  - intros h ws Hws. apply lookup_app_Some in Hws as [Hws|[_ Hws]].
    + apply Hsock, Hws.
    + apply list_lookup_singleton_Some in Hws as [_ <-]. simpl. auto.
Qed.

Lemma transport_Inv s h rs : Inv s → Inv (update_socket h (set_readyState rs) s).
Proof.
  intros [Hids Hrooms Hroom Hsock]. split.
  - simpl. rewrite peerId_alter; [exact Hids | reflexivity].
  - exact Hrooms.
  - intros rid members Hget. destruct (Hroom _ _ Hget) as (Ht & Hne & Hnd & Hmem).
    split; [exact Ht |]. split; [exact Hne |]. split; [exact Hnd |].
    intros p c Hin. destruct (Hmem p c Hin) as (ws & Hws & Hp & Hc).
    rewrite lookup_update_socket. destruct (decide (h = c)) as [->|].
    + exists (set_readyState rs ws). rewrite Hws. done.
    + exists ws. done.
  - intros h' ws'. rewrite lookup_update_socket.
    destruct (decide (h = h')) as [<-|]; [|apply Hsock].
    destruct (sockets s !! h) as [ws|] eqn:Hws; [|discriminate].
    intros [= <-]. apply (Hsock h ws Hws).
Qed.

Lemma step_Inv e s s' out :
  Inv s → event_ok e s = true → step e s = Completed s' out → Inv s'.
Proof.
  intros HI Hok. destruct e as [uuid|h parsed|h|h|h rs]; simpl.
  - intros [= <- _]. apply on_connection_Inv; [|exact HI].
    simpl in Hok. apply bool_decide_eq_true in Hok. exact Hok.
  - apply on_message_Inv, HI.
  - unfold on_close. destruct (leaveRoom_Inv s h HI) as (s1 & out1 & -> & HI1 & _).
    intros [= <- _]. exact HI1.
  - unfold on_error. destruct (leaveRoom_Inv s h HI) as (s1 & out1 & -> & HI1 & _).
    intros [= <- _]. exact HI1.
  - intros [= <- _]. apply transport_Inv, HI.
Qed.

Lemma run_Inv es : ∀ s s' out, Inv s → run es s = Some (s', out) → Inv s'.
Proof.
  induction es as [|e es IH]; simpl; intros s s' out HI.
  - intros [= <- _]. exact HI.
  - destruct (event_ok e s) eqn:Hok; [|discriminate].
    destruct (step e s) as [s1 out1|] eqn:Hstep; [|discriminate].
    destruct (run es s1) as [[s2 out2]|] eqn:Hrun; [|discriminate].
    intros [= <- _]. eapply IH; [|exact Hrun]. eapply step_Inv; eauto.
Qed.

Lemma Inv_initial : Inv initial.
Proof.
  split; simpl.
  - apply NoDup_nil_2.
  - apply NoDup_nil_2.
  - intros rid members [=].
  - intros h ws Hws. rewrite lookup_nil in Hws. discriminate.
Qed.

Lemma reachable_Inv s : reachable s → Inv s.
Proof. intros (es & out & Hrun). eapply run_Inv; [apply Inv_initial | exact Hrun]. Qed.

Lemma alloc_sockets roomId s : sockets (alloc roomId s) = sockets s.
Proof. unfold alloc. destruct (is_reference roomId); reflexivity. Qed.

Lemma alloc_rooms roomId s : rooms (alloc roomId s) = rooms s.
Proof. unfold alloc. destruct (is_reference roomId); reflexivity. Qed.

Lemma alloc_sockets_eq roomId s h : sockets (alloc roomId s) !! h = sockets s !! h.
Proof. rewrite alloc_sockets. reflexivity. Qed.

Lemma leaveRoom_next_addr h s s' out :
  leaveRoom h s = Completed s' out → next_addr s' = next_addr s.
Proof.
  unfold leaveRoom.
  destruct (sockets s !! h) as [w|]; [|intros [= <- _]; reflexivity].
  destruct (current_room w s); [|intros [= <- _]; reflexivity].
  destruct (negb _); [discriminate |]. intros [= <- _].
  case_bool_decide; reflexivity.
Qed.

(** ** Identity of room ids that are objects

    A room id that is an object or an array is a new key at every
    join-room: no room of the table has it and no socket holds it. *)

Lemma leaveRoom_addr_ok h s s' out :
  addr_ok s → leaveRoom h s = Completed s' out → addr_ok s'.
Proof.
  intros Hok. unfold leaveRoom.
  destruct (sockets s !! h) as [w|] eqn:Hw; [|intros [= <- _]; exact Hok].
  destruct (current_room w s); [|intros [= <- _]; exact Hok].
  destruct (negb _); [discriminate |]. intros [= <- _].
  intros h' ws' a v. rewrite lookup_update_socket.
  replace (next_addr _) with (next_addr s) by (case_bool_decide; reflexivity).
  replace (sockets _) with (sockets s) by (case_bool_decide; reflexivity).
  destruct (decide (h = h')) as [<-|Hne]; [|apply Hok].
  rewrite Hw. intros [= <-]. discriminate.
Qed.

Lemma alloc_addr_ok roomId s : addr_ok s → addr_ok (alloc roomId s).
Proof.
  intros Hok h ws a v. rewrite alloc_sockets_eq. intros Hws Hc.
  pose proof (Hok h ws a v Hws Hc). unfold alloc.
  destruct (is_reference roomId); simpl; lia.
Qed.

Lemma step_addr_ok e s s' out :
  addr_ok s → step e s = Completed s' out → addr_ok s'.
Proof.
  intros Hok. destruct e as [uuid|h parsed|h|h|h rs]; simpl.
  - intros [= <- _] h ws a v. simpl. intros Hws Hc.
    apply lookup_app_Some in Hws as [Hws|[_ Hws]]; [exact (Hok h ws a v Hws Hc) |].
    apply list_lookup_singleton_Some in Hws as [_ <-]. discriminate.
  - unfold on_message.
    destruct (sockets s !! h) as [w|] eqn:Hw; [|intros [= <- _]; exact Hok].
    destruct parsed as [data|]; [|intros [= <- _]; exact Hok].
    destruct (Get data "type") as [type|]; [|discriminate].
    destruct (Get data "roomId") as [roomId|]; [|discriminate].
    destruct (negb _); [discriminate |].
    case_bool_decide.
    + unfold join_room.
      destruct (negb (ToBoolean roomId)); [intros [= <- _]; exact Hok |].
      cbv zeta. unfold and_then. intros Hstep.
      assert (Henter : ∀ s1, addr_ok s1 → next_addr s1 = next_addr (alloc roomId s) →
                addr_ok (entered_state h (peerId w) (as_key (next_addr s) roomId) s1)).
      { intros s1 Hok1 Hn h' ws' a v. unfold entered_state. simpl sockets.
        simpl next_addr. destruct (decide (h = h')) as [<-|Hne].
        - rewrite list_lookup_alter_eq. destruct (sockets s1 !! h); [|discriminate].
          intros [= <-]. simpl. rewrite Hn. unfold alloc.
          destruct roomId; simpl; try discriminate; intros [= <- _]; lia.
        - rewrite list_lookup_alter_ne by exact Hne. apply Hok1. }
      destruct (_ && _).
      * destruct (leaveRoom h (alloc roomId s)) as [s1 o1|] eqn:Hl; [|discriminate].
        rewrite enter_room_eq in Hstep. injection Hstep as <- _.
        apply Henter; [eapply leaveRoom_addr_ok; [apply alloc_addr_ok, Hok | exact Hl] |].
        destruct (leaveRoom_next_addr _ _ _ _ Hl). reflexivity.
      * rewrite enter_room_eq in Hstep. injection Hstep as <- _.
        apply Henter; [apply alloc_addr_ok, Hok | reflexivity].
    + destruct (is_relay_type type).
      * intros Hr. pose proof (relay_state h w data type s) as Hs.
        rewrite Hr in Hs. simpl in Hs. subst s'. exact Hok.
      * destruct (ToString type); [intros [= <- _]; exact Hok | discriminate].
  - apply leaveRoom_addr_ok, Hok.
  - apply leaveRoom_addr_ok, Hok.
  - intros [= <- _] h' ws' a v. rewrite lookup_update_socket. simpl next_addr.
    destruct (decide (h = h')) as [<-|Hne]; [|apply Hok].
    destruct (sockets s !! h) as [w|] eqn:Hw; [|discriminate].
    intros [= <-]. simpl. apply (Hok h w a v Hw).
Qed.

Lemma run_addr_ok es : ∀ s s' out, addr_ok s → run es s = Some (s', out) → addr_ok s'.
Proof.
  induction es as [|e es IH]; simpl; intros s s' out Hok.
  - intros [= <- _]. exact Hok.
  - destruct (event_ok e s); [|discriminate].
    destruct (step e s) as [s1 out1|] eqn:Hstep; [|discriminate].
    destruct (run es s1) as [[s2 out2]|] eqn:Hrun; [|discriminate].
    intros [= <- _]. eapply IH; [|exact Hrun]. eapply step_addr_ok; eauto.
Qed.

Lemma fresh_object_key s roomId :
  reachable s → is_reference roomId = true →
  JSMap.get (as_key (next_addr s) roomId) (rooms s) = None ∧
  ∀ h ws, sockets s !! h = Some ws →
          currentRoomId ws ≠ as_key (next_addr s) roomId.
Proof.
  intros Hreach Href.
  assert (Hok : addr_ok s).
  { destruct Hreach as (es & out & Hrun). eapply run_addr_ok; [|exact Hrun].
    intros h ws a v Hws. simpl in Hws. rewrite lookup_nil in Hws. discriminate. }
  assert (Hk : as_key (next_addr s) roomId = KObj (next_addr s) roomId)
    by (destruct roomId; try discriminate; reflexivity).
  rewrite Hk.
  assert (Hsock : ∀ h ws, sockets s !! h = Some ws →
                          currentRoomId ws ≠ KObj (next_addr s) roomId).
  { intros h ws Hws Hc. pose proof (Hok h ws _ _ Hws Hc). lia. }
  split; [|exact Hsock].
  destruct (JSMap.get (KObj (next_addr s) roomId) (rooms s)) as [m|] eqn:Hget;
    [|reflexivity].
  destruct (inv_room s (reachable_Inv s Hreach) _ m Hget) as (_ & Hne & _ & Hmem).
  destruct m as [|[p c] m]; [contradiction |].
  destruct (Hmem p c ltac:(left)) as (ws & Hws & _ & Hc).
  exfalso. exact (Hsock c ws Hws Hc).
Qed.

(** ** Joining a room *)

(** C1, as the code has it: a peer that has just connected (its
    currentRoomId is null) and sends join-room for a room id ["r1"] (any
    non-empty string [r]) that has no members is sent no existing-peers
    message; the only message of the handler is the joined-room
    confirmation with the room id and the peer's own peerId, and the room
    then holds that peer alone. *)
Theorem C1_join_empty_room s h ws data r :
  sockets s !! h = Some ws →
  currentRoomId ws = null →
  Get data "type" = Some (VString "join-room") →
  Get data "roomId" = Some (VString r) →
  r ≠ "" →
  default [] (JSMap.get (KPrim (VString r)) (rooms s)) = [] →
  ∃ s',
    on_message h (Some data) s
    = Completed s' [send h (msg_joined_room (VString r) (peerId ws))] ∧
    JSMap.get (KPrim (VString r)) (rooms s') = Some [(peerId ws, h)].
Proof.
  intros Hws Hnull Htype Hroom Hr Hempty.
  assert (Htruthy : ToBoolean (VString r) = true).
  { simpl. apply negb_true_iff, String.eqb_neq, Hr. }
  exists (entered_state h (peerId ws) (KPrim (VString r)) s). split.
  - unfold on_message. rewrite Hws, Htype, Hroom.
    unfold or_else. rewrite Htruthy.
    replace (console [VString "join-room"; VString r]) with true by reflexivity.
    simpl negb. cbv iota. rewrite bool_decide_eq_true_2 by reflexivity.
    unfold join_room. rewrite Htruthy, Hnull. simpl negb. cbv iota zeta.
    rewrite ToBoolean_null. simpl andb. cbv iota.
    unfold and_then, alloc. simpl is_reference. cbv iota.
    simpl as_key. rewrite enter_room_eq. rewrite app_nil_l. f_equal.
    unfold entered_sent, entered_members. rewrite Hempty. simpl.
    rewrite bool_decide_eq_true_2 by reflexivity. reflexivity.
  - unfold entered_state, entered_members. simpl rooms.
    rewrite jsmap_get_set_eq, Hempty. reflexivity.
Qed.

Lemma C1_join_empty_room_witness :
  ∃ s',
    on_message 0 (Some (join_msg "r1")) (mkState [mkWebSocket "X" null OPEN] [] 0)
    = Completed s' [send 0 (msg_joined_room (VString "r1") "X")] ∧
    JSMap.get (KPrim (VString "r1")) (rooms s') = Some [("X", 0)].
Proof.
  apply (C1_join_empty_room (mkState [mkWebSocket "X" null OPEN] [] 0) 0
           (mkWebSocket "X" null OPEN) (join_msg "r1") "r1");
    [reflexivity | reflexivity | reflexivity | reflexivity | discriminate | reflexivity].
Defined.

(** C1 as stated fails: peer X connects and sends join-room for ["r1"],
    which has no members; X is sent the joined-room message and no
    existing-peers message, with an empty list or any other. *)
Lemma C1_counterexample :
  ∃ s0 s1,
    run [EConnection "X"] initial = Some (s0, [send 0 (msg_your_peer_id "X")]) ∧
    JSMap.get (KPrim (VString "r1")) (rooms s0) = None ∧
    step (EMessage 0 (Some (join_msg "r1"))) s0
    = Completed s1 [send 0 (msg_joined_room (VString "r1") "X")] ∧
    ∀ peers, send 0 (msg_existing_peers (VString "r1") peers)
             ∉ outcome_sent (step (EMessage 0 (Some (join_msg "r1"))) s0).
Proof.
  eexists _, _. split; [reflexivity |]. split; [reflexivity |].
  split; [reflexivity |].
  intros peers Hin. vm_compute in Hin.
  apply list_elem_of_singleton in Hin. discriminate.
Qed.

(** The list of the existing-peers message is the key list of the room as
    it is before the joiner is inserted, and the new-peer-joined loop runs
    over the members after the insertion. *)
Lemma enter_room_order h p k s :
  ∃ before,
    before = default [] (JSMap.get k (rooms s)) ∧
    enter_room h p k s
    = Completed (entered_state h p k s)
        ((if bool_decide (0 < JSMap.size before)
          then [send h (msg_existing_peers (key_value k) (JSMap.keys before))]
          else [])
           ++ notify_new_peer (entered_state h p k s) (key_value k) p
                (JSMap.set p h before)
           ++ [send h (msg_joined_room (key_value k) p)]) ∧
    JSMap.get k (rooms (entered_state h p k s)) = Some (JSMap.set p h before).
Proof.
  eexists. split; [reflexivity |]. split.
  - rewrite enter_room_eq. reflexivity.
  - unfold entered_state. simpl rooms. apply jsmap_get_set_eq.
Qed.

(** A peer that is not yet a member of the room it joins is not in the
    list it is sent. *)
Lemma existing_peers_exclude_newcomer s h ws k :
  Inv s → sockets s !! h = Some ws → currentRoomId ws ≠ k →
  peerId ws ∉ JSMap.keys (default [] (JSMap.get k (rooms s))).
Proof.
  intros HI Hws Hne Hin.
  destruct (JSMap.get k (rooms s)) as [m|] eqn:Hget; simpl in Hin;
    [|apply elem_of_nil in Hin; contradiction].
  apply jsmap_keys_get in Hin as [c Hc]. apply jsmap_get_elem in Hc.
  destruct (inv_room s HI k m Hget) as (_ & _ & _ & Hmem).
  destruct (Hmem _ _ Hc) as (ws' & Hws' & Hp & Hk).
  assert (c = h) as ->.
  { apply (peerId_inj s c h ws' ws (inv_peerIds s HI) Hws' Hws). congruence. }
  congruence.
Qed.

(** C2 fails on a repeated join: X joins ["r1"] and then sends join-room
    for ["r1"] again.  The room is not left (same id), the snapshot is
    taken with X in it, and X is sent an existing-peers list that holds
    its own peerId. *)
Theorem C2_rejoin_lists_joiner :
  ∃ s1 out1 s2 peers,
    run [EConnection "X"; EMessage 0 (Some (join_msg "r1"))] initial = Some (s1, out1) ∧
    step (EMessage 0 (Some (join_msg "r1"))) s1
    = Completed s2 [send 0 (msg_existing_peers (VString "r1") peers);
                    send 0 (msg_joined_room (VString "r1") "X")] ∧
    peers = ["X"].
Proof.
  eexists _, _, _, _. split; [reflexivity |]. split; reflexivity.
Qed.

(** ** Rooms exist while they have members *)

(** [leaveRoom] does not look at the address counter. *)
Lemma leaveRoom_alloc h roomId s :
  leaveRoom h (alloc roomId s)
  = match leaveRoom h s with
    | Completed s' out => Completed (alloc roomId s') out
    | Uncaught s' out => Uncaught (alloc roomId s') out
    end.
Proof.
  unfold alloc. destruct (is_reference roomId); [|destruct (leaveRoom h s); reflexivity].
  unfold leaveRoom. simpl sockets.
  destruct (sockets s !! h) as [ws|]; [|reflexivity].
  unfold current_room. simpl rooms.
  destruct (ToBoolean (key_value (currentRoomId ws))); [|reflexivity].
  destruct (JSMap.get (currentRoomId ws) (rooms s)) as [m|]; [|reflexivity].
  destruct (negb (console [key_value (currentRoomId ws)])); [reflexivity |].
  case_bool_decide; reflexivity.
Qed.

(** A join-room message with a usable room id, written out: the room
    switch when the id differs from the current one, then the entry. *)
Lemma on_message_join s h ws data roomId :
  sockets s !! h = Some ws →
  Get data "type" = Some (VString "join-room") →
  Get data "roomId" = Some roomId →
  ToBoolean roomId = true →
  on_message h (Some data) s
  = if console [roomId]
    then and_then
           (if ToBoolean (key_value (currentRoomId ws))
               && negb (bool_decide (currentRoomId ws = as_key (next_addr s) roomId))
            then leaveRoom h (alloc roomId s) else Completed (alloc roomId s) [])
           (enter_room h (peerId ws) (as_key (next_addr s) roomId))
    else Uncaught s [].
Proof.
  intros Hws Htype Hroom Htruthy. unfold on_message.
  rewrite Hws, Htype, Hroom. unfold or_else. rewrite Htruthy.
  replace (console [VString "join-room"; roomId]) with (console [roomId]) by reflexivity.
  destruct (console [roomId]); simpl negb; cbv iota; [|reflexivity].
  rewrite bool_decide_eq_true_2 by reflexivity.
  unfold join_room. rewrite Htruthy. reflexivity.
Qed.

Lemma rooms_entered_state h p k s :
  rooms (entered_state h p k s) = JSMap.set k (entered_members h p k s) (rooms s).
Proof. reflexivity. Qed.

(** C3: in every state the server reaches, a room id is a key of the room
    table exactly when the table gives it a member map that is not empty;
    and when the only member of a room closes, errors or joins another
    room, the room id is no longer a key once the event has completed. *)
Theorem C3_room_exists_iff_nonempty s :
  reachable s →
  (∀ rid, rid ∈ JSMap.keys (rooms s) ↔
          ∃ members, JSMap.get rid (rooms s) = Some members ∧ 0 < JSMap.size members) ∧
  (∀ h ws e s' out,
     sockets s !! h = Some ws →
     current_room ws s = Some [(peerId ws, h)] →
     leaving_event h ws s e →
     step e s = Completed s' out →
     currentRoomId ws ∉ JSMap.keys (rooms s')).
Proof.
  intros HI%reachable_Inv. split.
  - intros rid. rewrite jsmap_keys_get. split.
    + intros [m Hm]. exists m. split; [exact Hm |].
      destruct (inv_room s HI rid m Hm) as (_ & Hne & _).
      destruct m; [contradiction | simpl; lia].
    + intros (m & Hm & _). eauto.
  - intros h ws e s' out Hws Hroom Hev Hstep.
    assert (Hlog : console [key_value (currentRoomId ws)] = true)
      by apply (inv_socket s HI h ws Hws).
    assert (Hgone : currentRoomId ws
                    ∉ JSMap.keys (left_rooms (currentRoomId ws) (peerId ws)
                                    [(peerId ws, h)] (rooms s))).
    { rewrite jsmap_keys_get. intros [m Hm]. rewrite get_left_rooms in Hm.
      rewrite decide_True in Hm by reflexivity. simpl in Hm.
      rewrite decide_True in Hm by reflexivity. simpl in Hm. discriminate. }
    destruct Hev as [->|[->|(data & roomId & -> & Htype & Hrid & Htruthy & Hother)]].
    + simpl in Hstep. unfold on_close in Hstep.
      rewrite (leaveRoom_in_room s h ws _ Hws Hroom Hlog) in Hstep.
      injection Hstep as <- _. exact Hgone.
    + simpl in Hstep. unfold on_error in Hstep.
      rewrite (leaveRoom_in_room s h ws _ Hws Hroom Hlog) in Hstep.
      injection Hstep as <- _. exact Hgone.
    + simpl in Hstep. rewrite (on_message_join s h ws data roomId) in Hstep by assumption.
      destruct (console [roomId]); [|discriminate].
      apply current_room_Some in Hroom as Hroom'. destruct Hroom' as [Ht _].
      rewrite Ht, bool_decide_eq_false_2 in Hstep by congruence.
      simpl andb in Hstep. cbv iota in Hstep.
      rewrite leaveRoom_alloc, (leaveRoom_in_room s h ws _ Hws Hroom Hlog) in Hstep.
      unfold and_then in Hstep. rewrite enter_room_eq in Hstep.
      injection Hstep as <- _. rewrite rooms_entered_state.
      unfold JSMap.keys. rewrite jsmap_keys_set. intros [Heq|Hin]; [congruence |].
      rewrite alloc_rooms in Hin. exact (Hgone Hin).
Qed.

Lemma demo_X_in_r1_reachable : reachable demo_X_in_r1.
Proof.
  exists [EConnection "X"; EMessage 0 (Some (join_msg "r1"))]. eexists. reflexivity.
Defined.

Lemma C3_room_exists_iff_nonempty_witness :
  KPrim (VString "r1") ∈ JSMap.keys (rooms demo_X_in_r1) ∧
  KPrim (VString "r1") ∉ JSMap.keys (rooms (outcome_state (step (EClose 0) demo_X_in_r1))).
Proof.
  destruct (C3_room_exists_iff_nonempty demo_X_in_r1 demo_X_in_r1_reachable) as [H1 H2].
  split.
  - apply H1. eexists. split; [reflexivity | simpl; lia].
  - apply (H2 0 (mkWebSocket "X" (KPrim (VString "r1")) OPEN) (EClose 0) _ []);
      [reflexivity | reflexivity | left; reflexivity | reflexivity].
Defined.

(** ** The peer-left notifications *)

Lemma notify_peer_left_targets s v p m :
  (notify_peer_left s v p m).*1 = filter (λ c, is_open s c = true) m.*2.
Proof.
  unfold notify_peer_left. induction m as [|[q c] m IH]; [reflexivity |].
  simpl. rewrite fmap_app, IH, filter_cons. simpl snd.
  destruct (decide (is_open s c = true)) as [E|E].
  - rewrite E. reflexivity.
  - apply not_true_is_false in E. rewrite E. reflexivity.
Qed.

Lemma notify_peer_left_msgs s v p m c msg :
  (c, msg) ∈ notify_peer_left s v p m → msg = msg_peer_left v p.
Proof.
  unfold notify_peer_left. induction m as [|[q c'] m IH]; simpl.
  - intros Hin. apply elem_of_nil in Hin. contradiction.
  - rewrite elem_of_app. intros [Hin|Hin]; [|auto].
    destruct (is_open s c'); [|apply elem_of_nil in Hin; contradiction].
    apply list_elem_of_singleton in Hin. injection Hin as _ ->. reflexivity.
Qed.

Lemma NoDup_values {K V : Type} (m : list (K * V)) :
  NoDup m.*1 →
  (∀ q1 q2 c, (q1, c) ∈ m → (q2, c) ∈ m → q1 = q2) →
  NoDup m.*2.
Proof.
  induction m as [|[q c] m IH]; simpl; intros Hnd Hfun; [apply NoDup_nil_2 |].
  apply NoDup_cons in Hnd as [Hq Hnd]. apply NoDup_cons. split.
  - intros Hin. apply list_elem_of_fmap in Hin as ([q' c'] & Hc & Hin). simpl in Hc. subst c'.
    apply Hq. assert (q = q') as ->.
    { apply (Hfun q q' c); [left | right; exact Hin]. }
    apply (list_elem_of_fmap_2 fst _ (q', c)), Hin.
  - apply IH; [exact Hnd |]. intros q1 q2 c' H1 H2.
    apply (Hfun q1 q2 c'); right; assumption.
Qed.

(** What [leaveRoom] sends when the peer of [h] is in a room: the
    peer-left message, once to each other member whose socket is open. *)
Lemma left_sent_spec s h ws members :
  Inv s → sockets s !! h = Some ws → current_room ws s = Some members →
  (∀ c msg, (c, msg) ∈ left_sent ws members s →
            msg = msg_peer_left (key_value (currentRoomId ws)) (peerId ws)) ∧
  NoDup (left_sent ws members s).*1 ∧
  (∀ c, c ∈ (left_sent ws members s).*1 ↔
        (∃ q, q ≠ peerId ws ∧ (q, c) ∈ members) ∧ is_open s c = true).
Proof.
  intros HI Hws Hroom. apply current_room_Some in Hroom as [_ Hget].
  destruct (inv_room s HI _ _ Hget) as (_ & _ & Hnd & Hmem).
  assert (Hsent : left_sent ws members s
                  = notify_peer_left s (key_value (currentRoomId ws)) (peerId ws)
                      (JSMap.delete (peerId ws) members)).
  { unfold left_sent. case_bool_decide as Hsz; [|reflexivity].
    destruct (JSMap.delete (peerId ws) members); [reflexivity | discriminate]. }
  rewrite Hsent. split; [|split].
  - intros c msg. apply notify_peer_left_msgs.
  - rewrite notify_peer_left_targets. apply NoDup_filter, NoDup_values.
    + apply jsmap_NoDup_delete, Hnd.
    + intros q1 q2 c [_ H1]%jsmap_elem_delete [_ H2]%jsmap_elem_delete.
      destruct (Hmem _ _ H1) as (w1 & Hw1 & Hp1 & _).
      destruct (Hmem _ _ H2) as (w2 & Hw2 & Hp2 & _). congruence.
  - intros c. rewrite notify_peer_left_targets, list_elem_of_filter. split.
    + intros [Hopen Hin]. split; [|exact Hopen].
      apply list_elem_of_fmap in Hin as ([q c'] & Hc & Hin). simpl in Hc. subst c'.
      apply jsmap_elem_delete in Hin as [Hq Hin]. eauto.
    + intros [(q & Hq & Hin) Hopen]. split; [exact Hopen |].
      apply (list_elem_of_fmap_2 snd _ (q, c)), jsmap_elem_delete. auto.
Qed.

(** ** One room per peer *)



Lemma demo_XY_in_r1_reachable : reachable demo_XY_in_r1.
Proof.
  exists [EConnection "X"; EMessage 0 (Some (join_msg "r1"));
          EConnection "Y"; EMessage 1 (Some (join_msg "r1"))].
  eexists. vm_compute. reflexivity.
Defined.


(** ** Disconnection *)


Lemma demo_XYZ_in_r1_reachable : reachable demo_XYZ_in_r1.
Proof.
  exists [EConnection "X"; EMessage 0 (Some (join_msg "r1"));
          EConnection "Y"; EMessage 1 (Some (join_msg "r1"));
          EConnection "Z"; EMessage 2 (Some (join_msg "r1")); ETransport 2 3].
  eexists. vm_compute. reflexivity.
Defined.


(** C10: in a state the server reaches, [leaveRoom] (the body of the error
    and of the close handler) completes and leaves the socket's
    currentRoomId null; run again on the state it left, by either handler,
    it returns that state as it is and sends nothing. *)
Theorem C10_leaveRoom_idempotent s h :
  reachable s →
  ∃ s1 out1,
    leaveRoom h s = Completed s1 out1 ∧
    on_error h s = Completed s1 out1 ∧
    (∀ ws, sockets s !! h = Some ws →
           ∃ ws1, sockets s1 !! h = Some ws1 ∧ currentRoomId ws1 = null) ∧
    leaveRoom h s1 = Completed s1 [] ∧
    on_close h s1 = Completed s1 [] ∧
    on_error h s1 = Completed s1 [].
Proof.
  intros HI%reachable_Inv. unfold on_error, on_close.
  destruct (leaveRoom_Inv s h HI) as (s1 & out1 & Hl & HI1 & _ & Hws1).
  assert (Hagain : leaveRoom h s1 = Completed s1 []).
  { destruct (sockets s !! h) as [ws|] eqn:Hws.
    - destruct (Hws1 ws eq_refl) as (ws1 & Hw1 & _ & Hnull).
      apply leaveRoom_no_room with ws1; [exact Hw1 |].
      unfold current_room. rewrite Hnull. reflexivity.
    - unfold leaveRoom in Hl. rewrite Hws in Hl. injection Hl as <- _.
      unfold leaveRoom. rewrite Hws. reflexivity. }
  exists s1, out1. repeat split; try assumption.
  intros ws Hws. destruct (Hws1 ws Hws) as (ws1 & Hw1 & _ & Hnull). eauto.
Qed.

Lemma C10_leaveRoom_idempotent_witness :
  ∃ s1 out1,
    on_error 1 demo_XYZ_in_r1 = Completed s1 out1 ∧
    on_close 1 s1 = Completed s1 [].
Proof.
  destruct (C10_leaveRoom_idempotent demo_XYZ_in_r1 1 demo_XYZ_in_r1_reachable)
    as (s1 & out1 & _ & H1 & _ & _ & H2 & _).
  exists s1, out1. split; assumption.
Defined.

(** ** Relaying offers, answers and ICE candidates *)

Lemma own_prop_set_prop_eq k v props : own_prop k (set_prop k v props) = v.
Proof.
  induction props as [|[k' v'] props IH]; simpl.
  - rewrite decide_True; reflexivity.
  - destruct (decide (k' = k)) as [->|Hne]; simpl.
    + rewrite decide_True; reflexivity.
    + rewrite decide_False by exact Hne. exact IH.
Qed.


Lemma is_relay_type_cases type :
  is_relay_type type = true ↔
  type = VString "offer" ∨ type = VString "answer" ∨ type = VString "ice-candidate".
Proof.
  unfold is_relay_type. rewrite !orb_true_iff, !bool_decide_eq_true. tauto.
Qed.

(** A message of a relay type is an object. *)
Lemma relay_type_object data type :
  Get data "type" = Some type → is_relay_type type = true →
  ∃ props, data = VObject props.
Proof.
  intros Hget Hrel. apply is_relay_type_cases in Hrel.
  destruct data; simpl in Hget; try discriminate; eauto;
    injection Hget as <-; destruct Hrel as [?|[?|?]]; discriminate.
Qed.

(** The message handler on a message of a relay type. *)
Lemma on_message_relay s h ws data type roomId :
  sockets s !! h = Some ws →
  Get data "type" = Some type → is_relay_type type = true →
  Get data "roomId" = Some roomId →
  on_message h (Some data) s
  = if console [type; or_else roomId (VString "N/A")]
    then relay h ws data type s else Uncaught s [].
Proof.
  intros Hws Htype Hrel Hroom. unfold on_message. rewrite Hws, Htype, Hroom.
  destruct (console [type; or_else roomId (VString "N/A")]); simpl negb; cbv iota;
    [|reflexivity].
  rewrite Hrel. rewrite bool_decide_eq_false_2; [reflexivity |].
  intros ->. discriminate.
Qed.

(** What the relay case sends: nothing (an exception first), one error
    reply to the sender, or the one forwarded message to the open socket
    registered under [targetPeerId] in the sender's room. *)
Lemma relay_sent h ws data type s :
  outcome_sent (relay h ws data type s) = [] ∨
  (∃ text, outcome_sent (relay h ws data type s) = [send h (msg_error text)]) ∨
  (∃ t members c,
      Get data "targetPeerId" = Some t ∧ ToBoolean t = true ∧
      current_room ws s = Some members ∧ get_client t members = Some c ∧
      is_open s c = true ∧
      outcome_sent (relay h ws data type s) = [send c (msg_relay data (peerId ws))]).
Proof.
  unfold relay. destruct (Get data "targetPeerId") as [t|]; [|left; reflexivity].
  destruct (ToBoolean t) eqn:Ht; simpl negb; cbv iota; [|right; left; eauto].
  destruct (current_room ws s) as [members|]; [|right; left; eauto].
  destruct (get_client t members) as [c|] eqn:Hc.
  - destruct (is_open s c) eqn:Hopen.
    + right. right. exists t, members, c. repeat split; try assumption.
      destruct (console _); reflexivity.
    + destruct (console _); [|left; reflexivity].
      destruct (ToString t); [right; left; eauto | left; reflexivity].
  - destruct (console _); [|left; reflexivity].
    destruct (ToString t); [right; left; eauto | left; reflexivity].
Qed.

(** A sent object is the forwarded message when its [type] is the relay
    type of the inbound message; the error replies have type ["error"]. *)
Lemma relay_delivered s h ws data type c m :
  sockets s !! h = Some ws →
  Get data "type" = Some type → is_relay_type type = true →
  (c, m) ∈ outcome_sent (on_message h (Some data) s) →
  Get m "type" = Some type →
  ∃ props t members,
    data = VObject props ∧
    Get data "targetPeerId" = Some (VString t) ∧
    current_room ws s = Some members ∧ JSMap.get t members = Some c ∧
    is_open s c = true ∧
    m = VObject (set_prop "senderPeerId" (VString (peerId ws)) props) ∧
    outcome_sent (on_message h (Some data) s) = [(c, m)].
Proof.
  intros Hws Htype Hrel Hin Hm.
  destruct (relay_type_object data type Htype Hrel) as [props ->].
  rewrite (on_message_relay s h ws _ type (own_prop "roomId" props) Hws Htype Hrel)
    in * by reflexivity.
  destruct (console [type; or_else (own_prop "roomId" props) (VString "N/A")]);
    [|apply elem_of_nil in Hin; contradiction].
  destruct (relay_sent h ws (VObject props) type s)
    as [Hs|[[text Hs]|(t & members & c' & Ht & Htruthy & Hroom & Hc & Hopen & Hs)]];
    rewrite Hs in Hin |- *.
  - apply elem_of_nil in Hin. contradiction.
  - apply list_elem_of_singleton in Hin. injection Hin as -> ->.
    simpl in Hm. injection Hm as <-. apply is_relay_type_cases in Hrel.
    destruct Hrel as [?|[?|?]]; discriminate.
  - apply list_elem_of_singleton in Hin. injection Hin as -> ->.
    destruct t; try discriminate. simpl in Hc.
    exists props, s0, members. repeat split; assumption.
Qed.




(** C9: the senderPeerId of a delivered relay message is the peerId of the
    socket whose handler received the inbound message, whatever
    senderPeerId field that message had. *)
Theorem C9_sender_identity_overwritten s h ws data type c m :
  sockets s !! h = Some ws →
  Get data "type" = Some type → is_relay_type type = true →
  (c, m) ∈ outcome_sent (on_message h (Some data) s) →
  Get m "type" = Some type →
  Get m "senderPeerId" = Some (VString (peerId ws)).
Proof.
  intros Hws Htype Hrel Hin Hm.
  destruct (relay_delivered s h ws data type c m Hws Htype Hrel Hin Hm)
    as (props & t & members & -> & _ & _ & _ & _ & -> & _).
  simpl. rewrite own_prop_set_prop_eq. reflexivity.
Qed.

Lemma C9_sender_identity_overwritten_witness :
  Get demo_offer "senderPeerId" = Some (VString "Z") ∧
  Get (msg_relay demo_offer "X") "senderPeerId" = Some (VString "X").
Proof.
  split; [reflexivity |].
  apply (C9_sender_identity_overwritten demo_XY_in_r1 0
           (mkWebSocket "X" (KPrim (VString "r1")) OPEN) demo_offer
           (VString "offer") 1 (msg_relay demo_offer "X"));
    [reflexivity | reflexivity | reflexivity | left | reflexivity].
Defined.

Lemma leaveRoom_peerIds h s s' out :
  leaveRoom h s = Completed s' out → peerId <$> sockets s' = peerId <$> sockets s.
Proof.
  unfold leaveRoom.
  destruct (sockets s !! h) as [w|]; [|intros [= <- _]; reflexivity].
  destruct (current_room w s); [|intros [= <- _]; reflexivity].
  destruct (negb _); [discriminate |]. intros [= <- _].
  case_bool_decide; simpl; rewrite peerId_alter; reflexivity.
Qed.

(** The peerId of a socket is the identifier it was given at connection:
    no handler changes it. *)
Lemma peerId_stable e s s' out h ws :
  step e s = Completed s' out → sockets s !! h = Some ws →
  ∃ ws', sockets s' !! h = Some ws' ∧ peerId ws' = peerId ws.
Proof.
  intros Hstep Hws.
  assert (Hpid : (peerId <$> sockets s) !! h = Some (peerId ws))
    by (rewrite list_lookup_fmap, Hws; reflexivity).
  assert (Hgoal : ∀ l : list WebSocket,
            (peerId <$> l) !! h = Some (peerId ws) →
            ∃ ws', l !! h = Some ws' ∧ peerId ws' = peerId ws).
  { intros l Hl. rewrite list_lookup_fmap in Hl.
    destruct (l !! h) as [ws'|]; [|discriminate]. injection Hl as Hl. eauto. }
  apply Hgoal. clear Hgoal.
  destruct e as [uuid|h0 parsed|h0|h0|h0 rs]; simpl in Hstep.
  - injection Hstep as <- _. simpl. rewrite fmap_app.
    apply lookup_app_l_Some, Hpid.
  - unfold on_message in Hstep.
    destruct (sockets s !! h0) as [w|] eqn:Hw; [|injection Hstep as <- _; exact Hpid].
    destruct parsed as [data|]; [|injection Hstep as <- _; exact Hpid].
    destruct (Get data "type") as [type|]; [|discriminate].
    destruct (Get data "roomId") as [roomId|]; [|discriminate].
    destruct (negb _); [discriminate |].
    case_bool_decide.
    + unfold join_room in Hstep.
      destruct (negb (ToBoolean roomId)); [injection Hstep as <- _; exact Hpid |].
      cbv zeta in Hstep. unfold and_then in Hstep.
      rewrite <- (alloc_sockets roomId s) in Hpid.
      destruct (_ && _).
      * destruct (leaveRoom h0 (alloc roomId s)) as [s1 o1|] eqn:Hl; [|discriminate].
        rewrite enter_room_eq in Hstep. injection Hstep as <- _.
        simpl. rewrite peerId_alter by reflexivity.
        rewrite (leaveRoom_peerIds _ _ _ _ Hl). exact Hpid.
      * rewrite enter_room_eq in Hstep. injection Hstep as <- _.
        simpl. rewrite peerId_alter by reflexivity. exact Hpid.
    + destruct (is_relay_type type).
      * pose proof (relay_state h0 w data type s) as Hs. rewrite Hstep in Hs.
        simpl in Hs. subst s'. exact Hpid.
      * destruct (ToString type); [injection Hstep as <- _; exact Hpid | discriminate].
  - rewrite (leaveRoom_peerIds _ _ _ _ Hstep). exact Hpid.
  - rewrite (leaveRoom_peerIds _ _ _ _ Hstep). exact Hpid.
  - injection Hstep as <- _. simpl. rewrite peerId_alter by reflexivity. exact Hpid.
Qed.

(** X8: routing, for a relay message whose logged fields can be printed (the
    conversions of lines 46 and 123 succeed): it is forwarded to [c] when
    it has a truthy targetPeerId, the sender's currentRoomId is a room of
    the table, [c] is registered under the target in that room and is
    open; when no socket qualifies, the sender gets one error reply and
    nothing else is sent.  The state is unchanged in both cases. *)
Lemma relay_routing s h ws data type roomId targetPeerId :
  sockets s !! h = Some ws →
  Get data "type" = Some type → is_relay_type type = true →
  Get data "roomId" = Some roomId →
  Get data "targetPeerId" = Some targetPeerId →
  console [type; or_else roomId (VString "N/A")] = true →
  console [targetPeerId; key_value (currentRoomId ws)] = true →
  (∀ c members,
     ToBoolean targetPeerId = true → current_room ws s = Some members →
     get_client targetPeerId members = Some c → is_open s c = true →
     on_message h (Some data) s
     = Completed s [send c (msg_relay data (peerId ws))]) ∧
  ((∀ c members,
      ToBoolean targetPeerId = true → current_room ws s = Some members →
      get_client targetPeerId members = Some c → is_open s c = false) →
   ∃ text, on_message h (Some data) s = Completed s [send h (msg_error text)]).
Proof.
  intros Hws Htype Hrel Hroom Htarget Hlog Hlog2.
  rewrite (on_message_relay s h ws data type roomId Hws Htype Hrel Hroom), Hlog.
  apply console_cons in Hlog as [_ _].
  assert (Hlog3 : console [type; targetPeerId; key_value (currentRoomId ws)] = true).
  { apply console_cons. split; [|exact Hlog2].
    apply is_relay_type_cases in Hrel as [->|[->| ->]]; simpl; eauto. }
  assert (Hlog4 : console [targetPeerId; key_value (currentRoomId ws); type] = true).
  { apply console_cons in Hlog2 as [Ht Hc]. apply console_cons. split; [exact Ht |].
    apply console_cons in Hc as [Hc _]. apply console_cons. split; [exact Hc |].
    apply console_cons in Hlog3 as [Hty _]. apply console_one, Hty. }
  apply console_cons in Hlog2 as [[txt Htxt] _].
  unfold relay. rewrite Htarget. split.
  - intros c members Ht Hcur Hc Hopen.
    rewrite Ht, Hcur, Hc, Hopen, Hlog3. reflexivity.
  - intros Hnone. destruct (ToBoolean targetPeerId) eqn:Ht; simpl negb; cbv iota; [|eauto].
    destruct (current_room ws s) as [members|] eqn:Hcur; [|eauto].
    destruct (get_client targetPeerId members) as [c|] eqn:Hc.
    + rewrite (Hnone c members eq_refl eq_refl Hc), Hlog4, Htxt. eauto.
    + rewrite Hlog4, Htxt. eauto.
Qed.

(** C5 fails where a logged field cannot be printed.  X and Y are in
    ["r1"], both open.  An offer of X for Y whose payload has a [roomId]
    field [{toString: 0}] meets every condition of delivery, yet the
    handler stops at line 46 with a TypeError: nothing is delivered.  An
    offer of X whose [targetPeerId] is [{toString: 0}] names no member, yet
    the handler stops at line 123: X gets no error reply. *)
Theorem C5_unprintable_field_stops_relay :
  let offer1 := VObject [("type", VString "offer"); ("targetPeerId", VString "Y");
                         ("roomId", unprintable)] in
  let offer2 := VObject [("type", VString "offer"); ("targetPeerId", unprintable)] in
  reachable demo_XY_in_r1 ∧
  (∃ members,
      current_room (mkWebSocket "X" (KPrim (VString "r1")) OPEN) demo_XY_in_r1
      = Some members ∧
      get_client (VString "Y") members = Some 1 ∧ is_open demo_XY_in_r1 1 = true) ∧
  step (EMessage 0 (Some offer1)) demo_XY_in_r1 = Uncaught demo_XY_in_r1 [] ∧
  step (EMessage 0 (Some offer2)) demo_XY_in_r1 = Uncaught demo_XY_in_r1 [].
Proof.
  split; [exact demo_XY_in_r1_reachable |].
  split; [eexists; repeat split; reflexivity |].
  split; reflexivity.
Qed.

(** ** Messages answered with an error *)

(** X9: when lines 46 and 134 can print the type and the roomId of a
    rejected message (one that does not parse, has a type that is none of
    the four, is a join-room with a falsy roomId or a relay message with a
    falsy targetPeerId), the sender gets one error reply, nothing else is
    sent and the state is unchanged. *)
Lemma rejected_error_reply s h ws parsed :
  sockets s !! h = Some ws →
  rejected parsed →
  (∀ data, parsed = Some data →
           ∃ type roomId, Get data "type" = Some type ∧
                          Get data "roomId" = Some roomId ∧
                          console [type; or_else roomId (VString "N/A")] = true) →
  ∃ text, on_message h parsed s = Completed s [send h (msg_error text)].
Proof.
  intros Hws Hrej Hlog. unfold on_message. rewrite Hws.
  destruct parsed as [data|]; [|eauto].
  destruct (Hlog data eq_refl) as (type & roomId & Htype & Hroom & Hc).
  destruct Hrej as (type' & Htype' & Hcases).
  assert (type' = type) as -> by congruence.
  rewrite Htype, Hroom, Hc. simpl negb. cbv iota.
  destruct Hcases as [[Hnj Hnr]|[[-> (r & Hr & Hfalsy)]|[Hrel (t & Ht & Hfalsy)]]].
  - rewrite bool_decide_eq_false_2 by exact Hnj. rewrite Hnr.
    apply console_cons in Hc as [[txt ->] _]. eauto.
  - rewrite bool_decide_eq_true_2 by reflexivity.
    assert (r = roomId) as -> by congruence.
    unfold join_room. rewrite Hfalsy. simpl. eauto.
  - rewrite bool_decide_eq_false_2 by (intros ->; discriminate). rewrite Hrel.
    unfold relay. rewrite Ht, Hfalsy. simpl. eauto.
Qed.

(** C8 fails on two kinds of message that parse.  The text [null] parses
    to [null], and reading [data.type] at line 46 throws.  The text
    [{"type":{"toString":0}}] has a type that is none of the four, and
    printing it at line 46 throws.  In both cases the handler ends there:
    no error reply is sent, and the exception is caught nowhere. *)
Theorem C8_unanswered_messages :
  let s := mkState [mkWebSocket "X" null OPEN] [] 0 in
  reachable s ∧
  rejected (Some (VObject [("type", unprintable)])) ∧
  step (EMessage 0 (Some VNull)) s = Uncaught s [] ∧
  step (EMessage 0 (Some (VObject [("type", unprintable)]))) s = Uncaught s [].
Proof.
  split; [exists [EConnection "X"]; eexists; reflexivity |].
  split; [|split; reflexivity].
  exists unprintable. split; [reflexivity |]. left. split; [discriminate | reflexivity].
Qed.

(** * Further properties of the handlers *)

(** ** The join-room case as a whole *)

Lemma is_open_lookup s s' c :
  readyState <$> sockets s' !! c = readyState <$> sockets s !! c →
  is_open s' c = is_open s c.
Proof.
  unfold is_open. destruct (sockets s' !! c) as [w'|], (sockets s !! c) as [w|];
    simpl; intros H; try discriminate; [|reflexivity].
  injection H as ->. reflexivity.
Qed.

Lemma is_open_update_cur s h k c :
  is_open (update_socket h (set_currentRoomId k) s) c = is_open s c.
Proof.
  apply is_open_lookup. rewrite lookup_update_socket.
  destruct (decide (h = c)) as [<-|]; [|reflexivity].
  destruct (sockets s !! h); reflexivity.
Qed.

Lemma is_open_alloc roomId s c : is_open (alloc roomId s) c = is_open s c.
Proof. unfold is_open. rewrite alloc_sockets. reflexivity. Qed.

(** What a join-room message with a usable room id does in a state that
    satisfies the invariant: [s1] and [out1] are the state and the messages
    of the room switch, if there is one. *)
Lemma join_outcome s h ws data roomId :
  Inv s → sockets s !! h = Some ws →
  Get data "type" = Some (VString "join-room") →
  Get data "roomId" = Some roomId →
  ToBoolean roomId = true → console [roomId] = true →
  ∃ s1 out1,
    on_message h (Some data) s
    = Completed (entered_state h (peerId ws) (as_key (next_addr s) roomId) s1)
        (out1 ++ entered_sent h (peerId ws) (as_key (next_addr s) roomId) s1) ∧
    Inv s1 ∧
    (∃ ws1, sockets s1 !! h = Some ws1 ∧ peerId ws1 = peerId ws ∧
            (currentRoomId ws1 = null ∨
             currentRoomId ws1 = as_key (next_addr s) roomId)) ∧
    (∀ c, is_open s1 c = is_open s c) ∧
    (∀ x, x ∈ out1 →
          x.2 = msg_peer_left (key_value (currentRoomId ws)) (peerId ws)) ∧
    (∀ rid, rid ≠ currentRoomId ws →
            JSMap.get rid (rooms s1) = JSMap.get rid (rooms s)) ∧
    (currentRoomId ws = as_key (next_addr s) roomId →
     s1 = alloc roomId s ∧ out1 = []).
Proof.
  intros HI Hws Htype Hrid Htruthy Hlog.
  rewrite (on_message_join s h ws data roomId Hws Htype Hrid Htruthy), Hlog.
  set (k := as_key (next_addr s) roomId).
  destruct (ToBoolean (key_value (currentRoomId ws))
            && negb (bool_decide (currentRoomId ws = k))) eqn:Hsw.
  - apply andb_true_iff in Hsw as [Ht Hne].
    apply negb_true_iff, bool_decide_eq_false in Hne.
    destruct (inv_socket s HI h ws Hws) as [Hlogc [Hnull|(_ & members & Hm & Hp)]];
      [rewrite Hnull in Ht; discriminate |].
    assert (Hroom : current_room ws s = Some members)
      by (apply current_room_Some; auto).
    rewrite leaveRoom_alloc, (leaveRoom_in_room s h ws members Hws Hroom Hlogc).
    unfold and_then. rewrite enter_room_eq.
    exists (alloc roomId (left_state h ws members s)), (left_sent ws members s).
    split; [reflexivity |].
    split; [apply Inv_alloc, Inv_left; assumption |].
    split; [|split; [|split; [|split]]].
    + exists (set_currentRoomId null ws). rewrite alloc_sockets_eq.
      unfold left_state. rewrite lookup_update_socket, decide_True by reflexivity.
      simpl sockets. rewrite Hws. auto.
    + intros c. rewrite is_open_alloc. unfold left_state.
      rewrite is_open_update_cur. reflexivity.
    + intros [c msg] Hin. simpl.
      apply (proj1 (left_sent_spec s h ws members HI Hws Hroom) c msg Hin).
    + intros rid Hrid'. rewrite alloc_rooms. unfold left_state. simpl rooms.
      rewrite get_left_rooms, decide_False by congruence. reflexivity.
    + intros Heq. contradiction.
  - unfold and_then. rewrite enter_room_eq. rewrite app_nil_l.
    exists (alloc roomId s), []. split; [reflexivity |].
    split; [apply Inv_alloc, HI |].
    split; [|split; [|split; [|split]]].
    + exists ws. rewrite alloc_sockets_eq. split; [exact Hws |]. split; [reflexivity |].
      apply andb_false_iff in Hsw as [Hf|Hf].
      * left. destruct (inv_socket s HI h ws Hws) as [_ [?|[Ht _]]]; [done | congruence].
      * right. apply negb_false_iff, bool_decide_eq_true in Hf. exact Hf.
    + intros c. apply is_open_alloc.
    + intros x Hin. apply elem_of_nil in Hin. contradiction.
    + intros rid _. rewrite alloc_rooms. reflexivity.
    + intros _. auto.
Qed.

(** X3: in a state the server reaches, a join-room message with a room id
    that is truthy and can be printed always completes; afterwards the
    socket's currentRoomId is that room id, the room is in the table with
    the peer registered under its peerId, and the last message sent is the
    joined-room confirmation to the joiner. *)
Theorem join_room_postcondition s h ws data roomId :
  reachable s → sockets s !! h = Some ws →
  Get data "type" = Some (VString "join-room") →
  Get data "roomId" = Some roomId →
  ToBoolean roomId = true → console [roomId] = true →
  ∃ s' out ws' members,
    on_message h (Some data) s = Completed s' out ∧
    sockets s' !! h = Some ws' ∧ peerId ws' = peerId ws ∧
    currentRoomId ws' = as_key (next_addr s) roomId ∧
    JSMap.get (as_key (next_addr s) roomId) (rooms s') = Some members ∧
    JSMap.get (peerId ws) members = Some h ∧
    last out = Some (send h (msg_joined_room roomId (peerId ws))).
Proof.
  intros HI%reachable_Inv Hws Htype Hrid Htruthy Hlog.
  destruct (join_outcome s h ws data roomId HI Hws Htype Hrid Htruthy Hlog)
    as (s1 & out1 & Hstep & _ & (ws1 & Hws1 & Hp1 & _) & _).
  eexists _, _, (set_currentRoomId (as_key (next_addr s) roomId) ws1), _.
  split; [exact Hstep |]. split; [|split; [exact Hp1 |split; [reflexivity |split; [|split]]]].
  - unfold entered_state. simpl sockets. rewrite list_lookup_alter_eq, Hws1. reflexivity.
  - rewrite rooms_entered_state. apply jsmap_get_set_eq.
  - unfold entered_members. apply jsmap_get_set_eq.
  - unfold entered_sent. rewrite !app_assoc, last_snoc, key_value_as_key. reflexivity.
Qed.

Lemma join_room_postcondition_witness :
  ∃ s' out ws' members,
    on_message 1 (Some (join_msg "r2")) demo_XY_in_r1 = Completed s' out ∧
    sockets s' !! 1 = Some ws' ∧ peerId ws' = "Y" ∧
    currentRoomId ws' = KPrim (VString "r2") ∧
    JSMap.get (KPrim (VString "r2")) (rooms s') = Some members ∧
    JSMap.get "Y" members = Some 1 ∧
    last out = Some (send 1 (msg_joined_room (VString "r2") "Y")).
Proof.
  apply (join_room_postcondition demo_XY_in_r1 1
           (mkWebSocket "Y" (KPrim (VString "r1")) OPEN) (join_msg "r2") (VString "r2")
           demo_XY_in_r1_reachable);
    reflexivity.
Defined.

(** ** Who is told about a new peer *)

Lemma notify_new_peer_targets s v p m :
  (notify_new_peer s v p m).*1
  = filter (λ c, is_open s c = true) (JSMap.delete p m).*2.
Proof.
  unfold notify_new_peer. induction m as [|[q c] m IH]; [reflexivity |].
  simpl. rewrite fmap_app, IH. destruct (decide (q = p)) as [->|Hne].
  - rewrite bool_decide_eq_true_2 by reflexivity. reflexivity.
  - rewrite bool_decide_eq_false_2 by exact Hne. simpl negb.
    rewrite fmap_cons, filter_cons. simpl snd.
    destruct (decide (is_open s c = true)) as [E|E].
    + rewrite E. reflexivity.
    + apply not_true_is_false in E. rewrite E. reflexivity.
Qed.

Lemma notify_new_peer_msgs s v p m c msg :
  (c, msg) ∈ notify_new_peer s v p m → msg = msg_new_peer_joined v p.
Proof.
  unfold notify_new_peer. induction m as [|[q c'] m IH]; simpl.
  - intros Hin. apply elem_of_nil in Hin. contradiction.
  - rewrite elem_of_app. intros [Hin|Hin]; [|auto].
    destruct (negb _ && _); [|apply elem_of_nil in Hin; contradiction].
    apply list_elem_of_singleton in Hin. injection Hin as _ ->. reflexivity.
Qed.

(** X2: in a state the server reaches, a join-room message (room id truthy
    and printable) makes the server send new-peer-joined, naming the
    joiner, exactly once to every other member of the joined room whose
    socket is open, and to nobody else, in particular not to the joiner;
    these messages come after the room switch and the existing-peers
    message and before the joined-room confirmation. *)
Theorem new_peer_joined_recipients s h ws data roomId :
  reachable s → sockets s !! h = Some ws →
  Get data "type" = Some (VString "join-room") →
  Get data "roomId" = Some roomId →
  ToBoolean roomId = true → console [roomId] = true →
  ∃ s' before notify members,
    on_message h (Some data) s
    = Completed s' (before ++ notify
                      ++ [send h (msg_joined_room roomId (peerId ws))]) ∧
    JSMap.get (as_key (next_addr s) roomId) (rooms s') = Some members ∧
    (∀ x, x ∈ before → x.2 ≠ msg_new_peer_joined roomId (peerId ws)) ∧
    (∀ x, x ∈ notify → x.2 = msg_new_peer_joined roomId (peerId ws)) ∧
    NoDup notify.*1 ∧ (h ∉ notify.*1) ∧
    (∀ c, c ∈ notify.*1 ↔
          (∃ q, q ≠ peerId ws ∧ (q, c) ∈ members) ∧ is_open s c = true).
Proof.
  intros HI%reachable_Inv Hws Htype Hrid Htruthy Hlog.
  destruct (join_outcome s h ws data roomId HI Hws Htype Hrid Htruthy Hlog)
    as (s1 & out1 & Hstep & HI1 & (ws1 & Hws1 & Hp1 & Hc1) & Hopen & Hmsg & _).
  set (k := as_key (next_addr s) roomId) in *.
  assert (Hkv : key_value k = roomId) by apply key_value_as_key.
  assert (HI' : Inv (entered_state h (peerId ws) k s1)).
  { rewrite <- Hp1. apply Inv_entered; auto; rewrite Hkv; assumption. }
  assert (Hget : JSMap.get k (rooms (entered_state h (peerId ws) k s1))
                 = Some (entered_members h (peerId ws) k s1))
    by (rewrite rooms_entered_state; apply jsmap_get_set_eq).
  destruct (inv_room _ HI' _ _ Hget) as (_ & _ & Hnd & Hmem).
  set (members := entered_members h (peerId ws) k s1) in *.
  set (notify := notify_new_peer (update_socket h (set_currentRoomId k) s1)
                   roomId (peerId ws) members).
  assert (Hto : ∀ c, c ∈ notify.*1 ↔
                     (∃ q, q ≠ peerId ws ∧ (q, c) ∈ members) ∧ is_open s c = true).
  { intros c. unfold notify. rewrite notify_new_peer_targets, list_elem_of_filter.
    rewrite is_open_update_cur, Hopen. split.
    - intros [Ho Hin]. split; [|exact Ho].
      apply list_elem_of_fmap in Hin as ([q c'] & Hc & Hin). simpl in Hc. subst c'.
      apply jsmap_elem_delete in Hin as [Hq Hin]. eauto.
    - intros [(q & Hq & Hin) Ho]. split; [exact Ho |].
      apply (list_elem_of_fmap_2 snd _ (q, c)), jsmap_elem_delete. auto. }
  exists (entered_state h (peerId ws) k s1),
    (out1 ++ (if bool_decide (0 < JSMap.size (default [] (JSMap.get k (rooms s1))))
              then [send h (msg_existing_peers roomId
                              (JSMap.keys (default [] (JSMap.get k (rooms s1)))))]
              else [])),
    notify, members.
  split; [|split; [exact Hget |split; [|split; [|split; [|split; [|exact Hto]]]]]].
  - rewrite Hstep. unfold entered_sent. rewrite Hkv. fold members. fold notify.
    rewrite <- !app_assoc. reflexivity.
  - intros x [Hin|Hin]%elem_of_app.
    + rewrite (Hmsg x Hin). discriminate.
    + case_bool_decide; [|apply elem_of_nil in Hin; contradiction].
      apply list_elem_of_singleton in Hin. subst x. discriminate.
  - intros [c msg] Hin. simpl. apply (notify_new_peer_msgs _ _ _ _ c msg Hin).
  - unfold notify. rewrite notify_new_peer_targets. apply NoDup_filter, NoDup_values.
    + apply jsmap_NoDup_delete, Hnd.
    + intros q1 q2 c [_ H1]%jsmap_elem_delete [_ H2]%jsmap_elem_delete.
      destruct (Hmem _ _ H1) as (w1 & Hw1 & Hq1 & _).
      destruct (Hmem _ _ H2) as (w2 & Hw2 & Hq2 & _). congruence.
  - intros Hin. apply Hto in Hin as [(q & Hq & Hin) _].
    destruct (Hmem _ _ Hin) as (w & Hw & Hpw & _).
    unfold entered_state in Hw. simpl sockets in Hw.
    rewrite list_lookup_alter_eq, Hws1 in Hw. injection Hw as <-.
    simpl in Hpw. congruence.
Qed.

Lemma new_peer_joined_recipients_witness :
  ∃ s' before notify,
    on_message 1 (Some (join_msg "r2"))
      (mkState [mkWebSocket "X" (KPrim (VString "r2")) OPEN;
                mkWebSocket "Y" null OPEN]
               [(KPrim (VString "r2"), [("X", 0)])] 0)
    = Completed s' (before ++ notify
                      ++ [send 1 (msg_joined_room (VString "r2") "Y")]) ∧
    0 ∈ notify.*1 ∧ 1 ∉ notify.*1.
Proof.
  destruct (new_peer_joined_recipients
              (mkState [mkWebSocket "X" (KPrim (VString "r2")) OPEN;
                        mkWebSocket "Y" null OPEN]
                       [(KPrim (VString "r2"), [("X", 0)])] 0)
              1 (mkWebSocket "Y" null OPEN) (join_msg "r2") (VString "r2"))
    as (s' & before & notify & members & Hstep & Hget & _ & _ & _ & Hself & Hto);
    [exists [EConnection "X"; EMessage 0 (Some (join_msg "r2")); EConnection "Y"];
       eexists; vm_compute; reflexivity
    | reflexivity | reflexivity | reflexivity | reflexivity | reflexivity |].
  exists s', before, notify. split; [exact Hstep |]. split; [|exact Hself].
  apply Hto. split; [|reflexivity]. exists "X". split; [discriminate |].
  pose proof Hstep as Hrun. vm_compute in Hrun. injection Hrun as <- _.
  vm_compute in Hget. injection Hget as <-. left.
Defined.

(** ** What the joiner is told *)

(** X4: in a state the server reaches, a peer that joins a room it is not
    in, and that has members, is sent the existing-peers message right
    after the room switch (if any).  Its list is the member peerIds of the
    room in join order: no peerId twice, not the joiner's own, each the
    peerId of a connected socket whose currentRoomId is that room. *)
Theorem existing_peers_for_newcomer s h ws data roomId members :
  reachable s → sockets s !! h = Some ws →
  Get data "type" = Some (VString "join-room") →
  Get data "roomId" = Some roomId →
  ToBoolean roomId = true → console [roomId] = true →
  currentRoomId ws ≠ as_key (next_addr s) roomId →
  JSMap.get (as_key (next_addr s) roomId) (rooms s) = Some members →
  (∃ s' before after,
      on_message h (Some data) s
      = Completed s'
          (before
             ++ send h (msg_existing_peers roomId (JSMap.keys members)) :: after) ∧
      ∀ x, x ∈ before →
           x.2 = msg_peer_left (key_value (currentRoomId ws)) (peerId ws)) ∧
  NoDup (JSMap.keys members) ∧
  (peerId ws ∉ JSMap.keys members) ∧
  (∀ q, q ∈ JSMap.keys members →
        ∃ c wc, sockets s !! c = Some wc ∧ peerId wc = q ∧
                currentRoomId wc = as_key (next_addr s) roomId).
Proof.
  intros HI%reachable_Inv Hws Htype Hrid Htruthy Hlog Hne Hget.
  destruct (join_outcome s h ws data roomId HI Hws Htype Hrid Htruthy Hlog)
    as (s1 & out1 & Hstep & _ & _ & _ & Hmsg & Hframe & _).
  destruct (inv_room s HI _ _ Hget) as (_ & Hnonempty & Hnd & Hmem).
  split; [|split; [exact Hnd |split]].
  - eexists _, out1, _. split; [|exact Hmsg]. rewrite Hstep. f_equal. f_equal.
    unfold entered_sent.
    rewrite (Hframe _ (not_eq_sym Hne)), Hget, key_value_as_key. simpl default.
    rewrite bool_decide_eq_true_2; [reflexivity |].
    destruct members; [contradiction | simpl; lia].
  - pose proof (existing_peers_exclude_newcomer s h ws _ HI Hws Hne) as Hex.
    rewrite Hget in Hex. exact Hex.
  - intros q Hq. apply jsmap_keys_get in Hq as [c Hc]. apply jsmap_get_elem in Hc.
    destruct (Hmem _ _ Hc) as (wc & Hwc & Hpc & Hcc). eauto.
Qed.

Lemma existing_peers_for_newcomer_witness :
  ∃ s' before after,
    on_message 1 (Some (join_msg "r2"))
      (mkState [mkWebSocket "X" (KPrim (VString "r2")) OPEN;
                mkWebSocket "Y" null OPEN]
               [(KPrim (VString "r2"), [("X", 0)])] 0)
    = Completed s'
        (before ++ send 1 (msg_existing_peers (VString "r2") ["X"]) :: after).
Proof.
  destruct (existing_peers_for_newcomer
              (mkState [mkWebSocket "X" (KPrim (VString "r2")) OPEN;
                        mkWebSocket "Y" null OPEN]
                       [(KPrim (VString "r2"), [("X", 0)])] 0)
              1 (mkWebSocket "Y" null OPEN) (join_msg "r2") (VString "r2")
              [("X", 0)])
    as [(s' & before & after & Hstep & _) _];
    [exists [EConnection "X"; EMessage 0 (Some (join_msg "r2")); EConnection "Y"];
       eexists; vm_compute; reflexivity
    | reflexivity | reflexivity | reflexivity | reflexivity | reflexivity
    | discriminate | reflexivity |].
  exists s', before, after. exact Hstep.
Defined.

(** ** Room ids that are objects; joining the same room again *)

(** X11: a room id that is an object or an array never names an existing
    room (a [Map] compares objects by identity and [JSON.parse] builds a
    new one for each message): in a state the server reaches, such a
    join-room opens a room that holds the joiner alone; nothing but the
    peer-left messages of the room switch and the joined-room confirmation
    is sent. *)
Theorem object_room_id_opens_new_room s h ws data roomId :
  reachable s → sockets s !! h = Some ws →
  Get data "type" = Some (VString "join-room") →
  Get data "roomId" = Some roomId →
  is_reference roomId = true → console [roomId] = true →
  JSMap.get (KObj (next_addr s) roomId) (rooms s) = None ∧
  ∃ s' before,
    on_message h (Some data) s
    = Completed s' (before ++ [send h (msg_joined_room roomId (peerId ws))]) ∧
    (∀ x, x ∈ before →
          x.2 = msg_peer_left (key_value (currentRoomId ws)) (peerId ws)) ∧
    JSMap.get (KObj (next_addr s) roomId) (rooms s') = Some [(peerId ws, h)].
Proof.
  intros Hreach Hws Htype Hrid Href Hlog.
  pose proof (reachable_Inv s Hreach) as HI.
  assert (Htruthy : ToBoolean roomId = true)
    by (destruct roomId; try discriminate; reflexivity).
  assert (Hk : as_key (next_addr s) roomId = KObj (next_addr s) roomId)
    by (destruct roomId; try discriminate; reflexivity).
  destruct (fresh_object_key s roomId Hreach Href) as [Hnone Hfresh].
  rewrite Hk in Hnone, Hfresh. split; [exact Hnone |].
  destruct (join_outcome s h ws data roomId HI Hws Htype Hrid Htruthy Hlog)
    as (s1 & out1 & Hstep & _ & _ & _ & Hmsg & Hframe & _).
  rewrite Hk in Hstep.
  assert (Hnone1 : JSMap.get (KObj (next_addr s) roomId) (rooms s1) = None).
  { rewrite Hframe; [exact Hnone |]. apply not_eq_sym, (Hfresh h ws Hws). }
  eexists _, out1. split; [|split; [exact Hmsg |]].
  - rewrite Hstep. f_equal. f_equal.
    unfold entered_sent, entered_members. rewrite Hnone1. simpl.
    rewrite bool_decide_eq_true_2 by reflexivity. reflexivity.
  - rewrite rooms_entered_state, jsmap_get_set_eq.
    unfold entered_members. rewrite Hnone1. reflexivity.
Qed.

Lemma object_room_id_opens_new_room_witness :
  let data := VObject [("type", VString "join-room");
                       ("roomId", VArray [VString "r1"])] in
  ∃ s' before,
    on_message 1 (Some data)
      (mkState [mkWebSocket "X" (KObj 0 (VArray [VString "r1"])) OPEN;
                mkWebSocket "Y" null OPEN]
               [(KObj 0 (VArray [VString "r1"]), [("X", 0)])] 1)
    = Completed s' (before ++ [send 1 (msg_joined_room (VArray [VString "r1"]) "Y")]) ∧
    JSMap.get (KObj 1 (VArray [VString "r1"])) (rooms s') = Some [("Y", 1)].
Proof.
  intros data.
  destruct (object_room_id_opens_new_room
              (mkState [mkWebSocket "X" (KObj 0 (VArray [VString "r1"])) OPEN;
                        mkWebSocket "Y" null OPEN]
                       [(KObj 0 (VArray [VString "r1"]), [("X", 0)])] 1)
              1 (mkWebSocket "Y" null OPEN) data (VArray [VString "r1"]))
    as (_ & s' & before & Hstep & _ & Hget);
    [exists [EConnection "X"; EMessage 0 (Some data); EConnection "Y"];
       eexists; vm_compute; reflexivity
    | reflexivity | reflexivity | reflexivity | reflexivity | reflexivity |].
  exists s', before. split; [exact Hstep | exact Hget].
Defined.

Lemma jsmap_set_same {K V : Type} `{EqDecision K} (k : K) (v : V) (m : list (K * V)) :
  JSMap.get k m = Some v → JSMap.set k v m = m.
Proof.
  induction m as [|[k' v'] m IH]; simpl; [discriminate |].
  destruct (decide (k' = k)) as [->|Hne].
  - intros [= ->]. reflexivity.
  - intros Hg. rewrite IH by exact Hg. reflexivity.
Qed.

Lemma list_alter_same {A : Type} (f : A → A) (l : list A) i x :
  l !! i = Some x → f x = x → alter f i l = l.
Proof.
  revert i. induction l as [|y l IH]; intros [|i]; simpl; try discriminate.
  - intros [= ->] ->. reflexivity.
  - intros Hl Hf. f_equal. apply IH; assumption.
Qed.

(** X12: in a state the server reaches, a join-room for the room the peer
    is in already changes neither the room table nor any socket: the state
    is the same afterwards.  The peer is sent existing-peers with every
    member of the room, itself included, then the new-peer-joined messages
    go out again, then joined-room. *)
Theorem rejoin_same_room_keeps_state s h ws data roomId :
  reachable s → sockets s !! h = Some ws →
  Get data "type" = Some (VString "join-room") →
  Get data "roomId" = Some roomId →
  ToBoolean roomId = true → console [roomId] = true →
  currentRoomId ws = as_key (next_addr s) roomId →
  ∃ members,
    JSMap.get (currentRoomId ws) (rooms s) = Some members ∧
    peerId ws ∈ JSMap.keys members ∧
    on_message h (Some data) s
    = Completed s
        (send h (msg_existing_peers roomId (JSMap.keys members))
           :: notify_new_peer s roomId (peerId ws) members
           ++ [send h (msg_joined_room roomId (peerId ws))]).
Proof.
  intros Hreach Hws Htype Hrid Htruthy Hlog Hsame.
  pose proof (reachable_Inv s Hreach) as HI.
  assert (Href : is_reference roomId = false).
  { destruct (is_reference roomId) eqn:E; [|reflexivity].
    destruct (fresh_object_key s roomId Hreach E) as [_ Hfresh].
    destruct (Hfresh h ws Hws Hsame). }
  assert (Halloc : alloc roomId s = s) by (unfold alloc; rewrite Href; reflexivity).
  destruct (inv_socket s HI h ws Hws) as [_ [Hnull|(_ & members & Hm & Hp)]].
  { rewrite Hnull in Hsame. destruct roomId; discriminate. }
  exists members. split; [exact Hm |].
  split; [apply jsmap_keys_get; eauto |].
  destruct (join_outcome s h ws data roomId HI Hws Htype Hrid Htruthy Hlog)
    as (s1 & out1 & Hstep & _ & _ & _ & _ & _ & Hs1).
  destruct (Hs1 Hsame) as [-> ->]. rewrite Halloc, <- Hsame in Hstep.
  rewrite Hstep. simpl app.
  assert (Hmem : entered_members h (peerId ws) (currentRoomId ws) s = members).
  { unfold entered_members. rewrite Hm. simpl. apply jsmap_set_same, Hp. }
  assert (Hstate : entered_state h (peerId ws) (currentRoomId ws) s = s).
  { unfold entered_state. rewrite Hmem, (jsmap_set_same _ _ _ Hm).
    unfold with_rooms, update_socket. simpl.
    rewrite (list_alter_same _ _ h ws Hws) by (destruct ws; reflexivity).
    destruct s; reflexivity. }
  rewrite Hstate. f_equal.
  unfold entered_sent. rewrite Hmem, Hm, Hsame, key_value_as_key. simpl default.
  destruct (inv_room s HI _ _ Hm) as (_ & Hnonempty & _).
  rewrite bool_decide_eq_true_2 by (destruct members; [contradiction | simpl; lia]).
  simpl app. f_equal. f_equal.
  unfold notify_new_peer. apply flat_map_ext. intros [q c].
  rewrite is_open_update_cur. reflexivity.
Qed.

Lemma rejoin_same_room_keeps_state_witness :
  ∃ members,
    JSMap.get (KPrim (VString "r1")) (rooms demo_XY_in_r1) = Some members ∧
    "X" ∈ JSMap.keys members ∧
    on_message 0 (Some (join_msg "r1")) demo_XY_in_r1
    = Completed demo_XY_in_r1
        (send 0 (msg_existing_peers (VString "r1") (JSMap.keys members))
           :: notify_new_peer demo_XY_in_r1 (VString "r1") "X" members
           ++ [send 0 (msg_joined_room (VString "r1") "X")]).
Proof.
  apply (rejoin_same_room_keeps_state demo_XY_in_r1 0
           (mkWebSocket "X" (KPrim (VString "r1")) OPEN) (join_msg "r1") (VString "r1")
           demo_XY_in_r1_reachable);
    reflexivity.
Defined.

(** ** What an event of one socket leaves alone *)

Lemma leaveRoom_frame h s h' :
  (h' ≠ h →
   sockets (outcome_state (leaveRoom h s)) !! h' = sockets s !! h') ∧
  readyState <$> sockets (outcome_state (leaveRoom h s)) !! h'
  = readyState <$> sockets s !! h'.
Proof.
  unfold leaveRoom. destruct (sockets s !! h) as [ws|] eqn:Hws; [|done].
  destruct (current_room ws s); [|done].
  destruct (negb _); [done |]. simpl outcome_state.
  rewrite lookup_update_socket.
  replace (sockets (if bool_decide _ then _ else _)) with (sockets s)
    by (case_bool_decide; reflexivity).
  destruct (decide (h = h')) as [<-|Hne]; [|done].
  split; [congruence |]. destruct (sockets s !! h); reflexivity.
Qed.

Lemma leaveRoom_sent h s c m :
  (c, m) ∈ outcome_sent (leaveRoom h s) → is_open s c = true.
Proof.
  unfold leaveRoom. destruct (sockets s !! h) as [ws|]; [|intros []%elem_of_nil].
  destruct (current_room ws s) as [members|]; [|intros []%elem_of_nil].
  destruct (negb _); [intros []%elem_of_nil |]. simpl outcome_sent.
  case_bool_decide; [intros []%elem_of_nil |].
  unfold notify_peer_left. generalize (JSMap.delete (peerId ws) members).
  intros l. induction l as [|[q c'] l IH]; simpl; [intros []%elem_of_nil |].
  rewrite elem_of_app. intros [Hin|Hin]; [|auto].
  unfold is_open in *. simpl sockets in Hin.
  destruct (sockets s !! c') as [w|] eqn:Hw; [|apply elem_of_nil in Hin; contradiction].
  destruct (bool_decide (readyState w = OPEN)) eqn:Ho;
    [|apply elem_of_nil in Hin; contradiction].
  apply list_elem_of_singleton in Hin. injection Hin as -> _. rewrite Hw. exact Ho.
Qed.

Lemma leaveRoom_rooms_frame h s ws rid :
  sockets s !! h = Some ws → rid ≠ currentRoomId ws →
  JSMap.get rid (rooms (outcome_state (leaveRoom h s))) = JSMap.get rid (rooms s).
Proof.
  intros Hws Hne. unfold leaveRoom. rewrite Hws.
  destruct (current_room ws s); [|reflexivity].
  destruct (negb _); simpl.
  - apply jsmap_get_set_ne. congruence.
  - case_bool_decide; simpl.
    + rewrite jsmap_get_delete_ne, jsmap_get_set_ne by congruence. reflexivity.
    + apply jsmap_get_set_ne. congruence.
Qed.

Lemma entered_sent_target h p k s c m :
  (c, m) ∈ entered_sent h p k s → c = h ∨ is_open s c = true.
Proof.
  unfold entered_sent. rewrite !elem_of_app. intros [Hin|[Hin|Hin]].
  - case_bool_decide; [|apply elem_of_nil in Hin; contradiction].
    apply list_elem_of_singleton in Hin. injection Hin as -> _. auto.
  - right. rewrite <- (is_open_update_cur s h k c).
    revert Hin. unfold notify_new_peer. generalize (entered_members h p k s).
    intros l. induction l as [|[q c'] l IH]; simpl; [intros []%elem_of_nil |].
    rewrite elem_of_app. intros [Hin|Hin]; [|auto].
    destruct (negb _); simpl in Hin; [|apply elem_of_nil in Hin; contradiction].
    destruct (is_open _ c') eqn:Ho; [|apply elem_of_nil in Hin; contradiction].
    apply list_elem_of_singleton in Hin. injection Hin as -> _. exact Ho.
  - apply list_elem_of_singleton in Hin. injection Hin as -> _. auto.
Qed.

(** The join-room case, whatever the state: the sockets other than [h] are
    untouched, no readyState changes, the rooms other than the old and the
    new one are untouched, and every message goes to [h] or to an open
    socket. *)
Lemma join_room_frame h ws roomId s :
  sockets s !! h = Some ws →
  (∀ h', (h' ≠ h →
          sockets (outcome_state (join_room h ws roomId s)) !! h' = sockets s !! h') ∧
         readyState <$> sockets (outcome_state (join_room h ws roomId s)) !! h'
         = readyState <$> sockets s !! h') ∧
  (∀ rid, rid ≠ currentRoomId ws → rid ≠ as_key (next_addr s) roomId →
          JSMap.get rid (rooms (outcome_state (join_room h ws roomId s)))
          = JSMap.get rid (rooms s)) ∧
  (∀ c m, (c, m) ∈ outcome_sent (join_room h ws roomId s) →
          c = h ∨ is_open s c = true).
Proof.
  intros Hws. unfold join_room.
  destruct (negb (ToBoolean roomId)).
  { split; [done |]. split; [done |]. intros c m Hin. simpl in Hin.
    apply list_elem_of_singleton in Hin. injection Hin as -> _. auto. }
  cbv zeta. set (k := as_key (next_addr s) roomId).
  assert (Hwsa : sockets (alloc roomId s) !! h = Some ws)
    by (rewrite alloc_sockets_eq; exact Hws).
  pose proof (leaveRoom_frame h (alloc roomId s)) as Hlf.
  pose proof (leaveRoom_sent h (alloc roomId s)) as Hls.
  pose proof (leaveRoom_rooms_frame h (alloc roomId s) ws) as Hlr.
  destruct (_ && _).
  - destruct (leaveRoom h (alloc roomId s)) as [s1 o1|s1 o1]; simpl in Hlf, Hls, Hlr.
    + unfold and_then. rewrite enter_room_eq. simpl outcome_state. simpl outcome_sent.
      split; [|split].
      * intros h'. destruct (Hlf h') as [Hf1 Hf2]. rewrite alloc_sockets_eq in Hf1, Hf2.
        unfold entered_state. simpl sockets. split.
        -- intros Hne. rewrite list_lookup_alter_ne by congruence. auto.
        -- rewrite <- Hf2. destruct (decide (h = h')) as [<-|Hne].
           ++ rewrite list_lookup_alter_eq. destruct (sockets s1 !! h); reflexivity.
           ++ rewrite list_lookup_alter_ne by exact Hne. reflexivity.
      * intros rid Hr1 Hr2. rewrite rooms_entered_state.
        rewrite jsmap_get_set_ne by congruence.
        rewrite (Hlr rid Hwsa Hr1), alloc_rooms. reflexivity.
      * intros c m [Hin|Hin]%elem_of_app.
        -- right. rewrite <- (is_open_alloc roomId s c). eapply Hls, Hin.
        -- apply entered_sent_target in Hin as [->|Ho]; [auto |]. right.
           rewrite <- Ho. symmetry. apply is_open_lookup.
           destruct (Hlf c) as [_ Hf2]. rewrite alloc_sockets_eq in Hf2. exact Hf2.
    + simpl. split; [|split].
      * intros h'. destruct (Hlf h') as [Hf1 Hf2]. rewrite alloc_sockets_eq in Hf1, Hf2.
        auto.
      * intros rid Hr1 _. rewrite (Hlr rid Hwsa Hr1), alloc_rooms. reflexivity.
      * intros c m Hin. right. rewrite <- (is_open_alloc roomId s c). eapply Hls, Hin.
  - unfold and_then. rewrite enter_room_eq. simpl outcome_state. simpl outcome_sent.
    split; [|split].
    + intros h'. unfold entered_state. simpl sockets. rewrite alloc_sockets. split.
      * intros Hne. rewrite list_lookup_alter_ne by congruence. reflexivity.
      * destruct (decide (h = h')) as [<-|Hne].
        -- rewrite list_lookup_alter_eq. destruct (sockets s !! h); reflexivity.
        -- rewrite list_lookup_alter_ne by exact Hne. reflexivity.
    + intros rid _ Hr2. rewrite rooms_entered_state.
      rewrite jsmap_get_set_ne by congruence. rewrite alloc_rooms. reflexivity.
    + intros c m Hin. apply entered_sent_target in Hin as [->|Ho]; [auto |].
      right. rewrite <- Ho. symmetry. apply is_open_alloc.
Qed.

(** X5: an event of one socket (a message, its close, its error, a
    connection) leaves every other socket as it was: peerId, currentRoomId
    and readyState. *)
Theorem other_sockets_untouched e s h' :
  h' ≠ event_handle e s →
  sockets (outcome_state (step e s)) !! h' = sockets s !! h'.
Proof.
  intros Hne. destruct e as [uuid|h parsed|h|h|h rs]; simpl in Hne |- *.
  - destruct (decide (h' < length (sockets s))) as [Hlt|Hge].
    + apply lookup_app_l, Hlt.
    + rewrite !(lookup_ge_None_2 _ h'); [reflexivity | lia |].
      rewrite length_app. simpl. lia.
  - unfold on_message.
    destruct (sockets s !! h) as [ws|] eqn:Hws; [|reflexivity].
    destruct parsed as [data|]; [|reflexivity].
    destruct (Get data "type") as [type|]; [|reflexivity].
    destruct (Get data "roomId") as [roomId|]; [|reflexivity].
    destruct (negb (console _)); [reflexivity |].
    case_bool_decide; [|destruct (is_relay_type type)].
    + apply (join_room_frame h ws roomId s); assumption.
    + rewrite relay_state. reflexivity.
    + destruct (ToString type); reflexivity.
  - apply (leaveRoom_frame h s h'), Hne.
  - apply (leaveRoom_frame h s h'), Hne.
  - apply list_lookup_alter_ne. congruence.
Qed.

Lemma other_sockets_untouched_witness :
  sockets (outcome_state (step (EMessage 0 (Some (join_msg "r2"))) demo_XY_in_r1)) !! 1
  = Some (mkWebSocket "Y" (KPrim (VString "r1")) OPEN).
Proof.
  rewrite (other_sockets_untouched (EMessage 0 (Some (join_msg "r2")))
             demo_XY_in_r1 1); [reflexivity | discriminate].
Defined.

(** Where a handler sends: the your-peer-id message to the socket a
    connection creates, anything to the socket of the event, and otherwise
    only to sockets that are open. *)
Lemma step_sent_cases e s c m :
  (c, m) ∈ outcome_sent (step e s) →
  (∃ uuid, e = EConnection uuid ∧ c = length (sockets s) ∧
           m = msg_your_peer_id uuid) ∨
  (c = event_handle e s ∧ is_Some (sockets s !! c)) ∨
  is_open s c = true.
Proof.
  assert (Hone : ∀ (x : Sent) h, (c, m) ∈ [x] → x.1 = h → c = h).
  { intros x h Hin Hx. apply list_elem_of_singleton in Hin. subst x. exact Hx. }
  destruct e as [uuid|h parsed|h|h|h rs]; simpl.
  - intros Hin. left. exists uuid. apply list_elem_of_singleton in Hin.
    injection Hin as -> ->. auto.
  - unfold on_message.
    destruct (sockets s !! h) as [ws|] eqn:Hws; [|intros []%elem_of_nil].
    assert (Hown : c = h → c = h ∧ is_Some (sockets s !! c))
      by (intros ->; rewrite Hws; eauto).
    destruct parsed as [data|];
      [|intros Hin; right; left; eapply Hown, Hone; [exact Hin | reflexivity]].
    destruct (Get data "type") as [type|]; [|intros []%elem_of_nil].
    destruct (Get data "roomId") as [roomId|]; [|intros []%elem_of_nil].
    destruct (negb (console _)); [intros []%elem_of_nil |].
    case_bool_decide; [|destruct (is_relay_type type)].
    + intros Hin. right.
      destruct (proj2 (proj2 (join_room_frame h ws roomId s Hws)) c m Hin); auto.
    + destruct (relay_sent h ws data type s)
        as [Hs|[[text Hs]|(t & members & c' & _ & _ & _ & _ & Ho & Hs)]];
        rewrite Hs; [intros []%elem_of_nil | |]; intros Hin; right.
      * left. eapply Hown, Hone; [exact Hin | reflexivity].
      * right. rewrite (Hone _ c' Hin eq_refl). exact Ho.
    + destruct (ToString type); [|intros []%elem_of_nil].
      intros Hin. right. left. eapply Hown, Hone; [exact Hin | reflexivity].
  - intros Hin. right. right. eapply leaveRoom_sent, Hin.
  - intros Hin. right. right. eapply leaveRoom_sent, Hin.
  - intros []%elem_of_nil.
Qed.

(** X13: whatever the state, a handler sends only to its own socket or to
    sockets whose readyState is OPEN; the notifications and the relayed
    messages never go to a socket that is not open. *)
Theorem sent_to_own_or_open_socket e s c m :
  (c, m) ∈ outcome_sent (step e s) →
  c = event_handle e s ∨ is_open s c = true.
Proof.
  intros Hin.
  destruct (step_sent_cases e s c m Hin) as [(uuid & -> & -> & _)|[[-> _]|Ho]]; auto.
Qed.

Lemma sent_to_own_or_open_socket_witness :
  1 = event_handle (EClose 0) demo_XYZ_in_r1 ∨ is_open demo_XYZ_in_r1 1 = true.
Proof.
  apply (sent_to_own_or_open_socket (EClose 0) demo_XYZ_in_r1 1
           (msg_peer_left (VString "r1") "X")).
  vm_compute. left.
Defined.

(** X6: an event of a socket changes no room other than the one the
    socket is in and, for a join-room, the one it names: every other room
    id keeps its member map, or stays absent. *)
Theorem other_rooms_untouched e s ws rid :
  sockets s !! event_handle e s = Some ws →
  rid ≠ currentRoomId ws →
  (∀ h data roomId,
     e = EMessage h (Some data) →
     Get data "type" = Some (VString "join-room") →
     Get data "roomId" = Some roomId →
     rid ≠ as_key (next_addr s) roomId) →
  JSMap.get rid (rooms (outcome_state (step e s))) = JSMap.get rid (rooms s).
Proof.
  intros Hws Hne Hjoin. destruct e as [uuid|h parsed|h|h|h rs]; simpl in Hws |- *.
  - reflexivity.
  - unfold on_message. rewrite Hws.
    destruct parsed as [data|]; [|reflexivity].
    destruct (Get data "type") as [type|] eqn:Htype; [|reflexivity].
    destruct (Get data "roomId") as [roomId|] eqn:Hrid; [|reflexivity].
    destruct (negb (console _)); [reflexivity |].
    case_bool_decide as Hj; [|destruct (is_relay_type type)].
    + subst type. apply (join_room_frame h ws roomId s Hws); [exact Hne |].
      apply (Hjoin h data roomId); auto.
    + rewrite relay_state. reflexivity.
    + destruct (ToString type); reflexivity.
  - apply leaveRoom_rooms_frame with ws; assumption.
  - apply leaveRoom_rooms_frame with ws; assumption.
  - reflexivity.
Qed.

Lemma other_rooms_untouched_witness :
  let s := mkState [mkWebSocket "X" (KPrim (VString "r1")) OPEN;
                    mkWebSocket "Y" (KPrim (VString "r2")) OPEN]
                   [(KPrim (VString "r1"), [("X", 0)]);
                    (KPrim (VString "r2"), [("Y", 1)])] 0 in
  JSMap.get (KPrim (VString "r2"))
    (rooms (outcome_state (step (EMessage 0 (Some (join_msg "r3"))) s)))
  = Some [("Y", 1)].
Proof.
  intros s.
  rewrite (other_rooms_untouched (EMessage 0 (Some (join_msg "r3"))) s
             (mkWebSocket "X" (KPrim (VString "r1")) OPEN) (KPrim (VString "r2")));
    [reflexivity | reflexivity | discriminate |].
  intros h data roomId [= <- <-] _ [= <-]. discriminate.
Defined.

(** ** Relayed messages stay in the room *)

(** X7: in a state the server reaches, a relay message is only ever
    forwarded to a socket that is open, whose currentRoomId is the
    sender's and whose peerId is the targetPeerId of the message: nothing
    is relayed into another room. *)
Theorem relay_stays_in_room s h ws data type c m :
  reachable s → sockets s !! h = Some ws →
  Get data "type" = Some type → is_relay_type type = true →
  (c, m) ∈ outcome_sent (on_message h (Some data) s) →
  Get m "type" = Some type →
  ∃ wc, sockets s !! c = Some wc ∧
        currentRoomId wc = currentRoomId ws ∧ readyState wc = OPEN ∧
        Get data "targetPeerId" = Some (VString (peerId wc)).
Proof.
  intros HI%reachable_Inv Hws Htype Hrel Hin Hm.
  destruct (relay_delivered s h ws data type c m Hws Htype Hrel Hin Hm)
    as (props & t & members & -> & Ht & Hroom & Hc & Hopen & _ & _).
  apply current_room_Some in Hroom as [_ Hget].
  destruct (inv_room s HI _ _ Hget) as (_ & _ & _ & Hmem).
  destruct (Hmem t c (jsmap_get_elem _ _ _ Hc)) as (wc & Hwc & Hp & Hcur).
  exists wc. split; [exact Hwc |]. split; [exact Hcur |]. split.
  - unfold is_open in Hopen. rewrite Hwc in Hopen.
    apply bool_decide_eq_true in Hopen. exact Hopen.
  - rewrite Hp. exact Ht.
Qed.

Lemma relay_stays_in_room_witness :
  ∃ wc, sockets demo_XY_in_r1 !! 1 = Some wc ∧
        currentRoomId wc = KPrim (VString "r1") ∧ readyState wc = OPEN ∧
        Get demo_offer "targetPeerId" = Some (VString (peerId wc)).
Proof.
  apply (relay_stays_in_room demo_XY_in_r1 0
           (mkWebSocket "X" (KPrim (VString "r1")) OPEN) demo_offer
           (VString "offer") 1 (msg_relay demo_offer "X")
           demo_XY_in_r1_reachable);
    [reflexivity | reflexivity | reflexivity | left | reflexivity].
Defined.

Lemma relay_routing_witness :
  on_message 0 (Some demo_offer) demo_XY_in_r1
  = Completed demo_XY_in_r1 [send 1 (msg_relay demo_offer "X")].
Proof.
  destruct (relay_routing demo_XY_in_r1 0
              (mkWebSocket "X" (KPrim (VString "r1")) OPEN) demo_offer
              (VString "offer") VUndefined (VString "Y")) as [H _];
    [reflexivity | reflexivity | reflexivity | reflexivity | reflexivity
    | reflexivity | reflexivity |].
  apply (H 1 [("X", 0); ("Y", 1)]); reflexivity.
Defined.

Lemma rejected_error_reply_witness :
  ∃ text,
    on_message 0 (Some (VObject [("type", VString "leave-room")])) demo_XY_in_r1
    = Completed demo_XY_in_r1 [send 0 (msg_error text)].
Proof.
  apply (rejected_error_reply demo_XY_in_r1 0
           (mkWebSocket "X" (KPrim (VString "r1")) OPEN)).
  - reflexivity.
  - exists (VString "leave-room"). split; [reflexivity |]. left.
    split; [discriminate | reflexivity].
  - intros data [= <-]. exists (VString "leave-room"), VUndefined.
    repeat split; reflexivity.
Defined.

(** ** Sockets over a whole run *)

(** A completed step keeps the peerIds of the sockets, in order; a
    connection adds its identifier at the end. *)
Lemma step_peerIds e s s' out :
  step e s = Completed s' out →
  peerId <$> sockets s'
  = (peerId <$> sockets s)
      ++ match e with EConnection uuid => [uuid] | _ => [] end.
Proof.
  destruct e as [uuid|h parsed|h|h|h rs]; simpl; intros Hstep;
    rewrite ?app_nil_r.
  - injection Hstep as <- _. simpl. rewrite fmap_app. reflexivity.
  - unfold on_message in Hstep.
    destruct (sockets s !! h) as [w|] eqn:Hw; [|injection Hstep as <- _; reflexivity].
    destruct parsed as [data|]; [|injection Hstep as <- _; reflexivity].
    destruct (Get data "type") as [type|]; [|discriminate].
    destruct (Get data "roomId") as [roomId|]; [|discriminate].
    destruct (negb _); [discriminate |].
    case_bool_decide.
    + unfold join_room in Hstep.
      destruct (negb (ToBoolean roomId)); [injection Hstep as <- _; reflexivity |].
      cbv zeta in Hstep. unfold and_then in Hstep.
      rewrite <- (alloc_sockets roomId s).
      destruct (_ && _).
      * destruct (leaveRoom h (alloc roomId s)) as [s1 o1|] eqn:Hl; [|discriminate].
        rewrite enter_room_eq in Hstep. injection Hstep as <- _.
        simpl. rewrite peerId_alter by reflexivity.
        apply (leaveRoom_peerIds _ _ _ _ Hl).
      * rewrite enter_room_eq in Hstep. injection Hstep as <- _.
        simpl. rewrite peerId_alter by reflexivity. reflexivity.
    + destruct (is_relay_type type).
      * pose proof (relay_state h w data type s) as Hs. rewrite Hstep in Hs.
        simpl in Hs. subst s'. reflexivity.
      * destruct (ToString type); [injection Hstep as <- _; reflexivity | discriminate].
  - apply (leaveRoom_peerIds _ _ _ _ Hstep).
  - apply (leaveRoom_peerIds _ _ _ _ Hstep).
  - injection Hstep as <- _. simpl. rewrite peerId_alter by reflexivity. reflexivity.
Qed.

Lemma lookup_peerId (l : list WebSocket) h :
  (peerId <$> l) !! h = peerId <$> l !! h.
Proof. apply list_lookup_fmap. Qed.

Lemma inbox_nil_iff h out : inbox h out = [] ↔ ∀ x, x ∈ out → x.1 ≠ h.
Proof.
  split.
  - intros Hnil x Hin Hx.
    assert (Hx' : x ∈ inbox h out)
      by (unfold inbox; apply list_elem_of_filter; auto).
    rewrite Hnil in Hx'. apply elem_of_nil in Hx'. exact Hx'.
  - intros Hall. unfold inbox. induction out as [|x out IH]; [reflexivity |].
    rewrite filter_cons. destruct (decide (x.1 = h)) as [Hx|_].
    + destruct (Hall x ltac:(left) Hx).
    + apply IH. intros y Hy. apply Hall. right. exact Hy.
Qed.

Lemma inbox_app h out1 out2 : inbox h (out1 ++ out2) = inbox h out1 ++ inbox h out2.
Proof. unfold inbox. apply filter_app. Qed.

Lemma inbox_cons_own h m out : inbox h (send h m :: out) = send h m :: inbox h out.
Proof. unfold inbox. rewrite filter_cons. simpl. rewrite decide_True; reflexivity. Qed.

(** Over a run: the sockets there at the start keep their peerId, and a
    socket created during the run has the your-peer-id message as the
    first message sent to it. *)
Lemma run_inbox es :
  ∀ s0 s out,
    run es s0 = Some (s, out) →
    (∀ h ws, sockets s0 !! h = Some ws →
             ∃ ws', sockets s !! h = Some ws' ∧ peerId ws' = peerId ws) ∧
    (∀ h, sockets s0 !! h = None →
          match sockets s !! h with
          | None => inbox h out = []
          | Some ws =>
              ∃ rest, inbox h out = send h (msg_your_peer_id (peerId ws)) :: rest
          end).
Proof.
  induction es as [|e es IH]; simpl; intros s0 s out.
  - intros [= <- <-]. split; [eauto |]. intros h Hnone. rewrite Hnone. reflexivity.
  - destruct (event_ok e s0); [|discriminate].
    destruct (step e s0) as [s1 out1|] eqn:Hstep; [|discriminate].
    destruct (run es s1) as [[s2 out2]|] eqn:Hrun; [|discriminate].
    intros [= <- <-]. destruct (IH s1 s2 out2 Hrun) as [IH1 IH2].
    pose proof (step_peerIds e s0 s1 out1 Hstep) as Hids.
    split.
    + intros h ws Hws.
      destruct (peerId_stable e s0 s1 out1 h ws Hstep Hws) as (w1 & Hw1 & Hp1).
      destruct (IH1 h w1 Hw1) as (w2 & Hw2 & Hp2). exists w2. split; congruence.
    + intros h Hnone. rewrite inbox_app.
      assert (Hlen : (length (sockets s0) ≤ h)%nat) by (apply lookup_ge_None_1, Hnone).
      destruct (sockets s1 !! h) as [w1|] eqn:Hw1.
      * (* the step is the connection that created [h] *)
        assert (Hl1 : (h < length (sockets s1))%nat) by (apply lookup_lt_Some in Hw1; exact Hw1).
        assert (Hlens : length (sockets s1)
                        = length (sockets s0)
                          + length (match e with EConnection uuid => [uuid] | _ => [] end)).
        { rewrite <- (length_fmap peerId (sockets s1)), Hids, length_app, length_fmap.
          reflexivity. }
        destruct e as [uuid|? ?|?|?|? ?]; simpl in Hlens; try lia.
        assert (h = length (sockets s0)) as -> by lia.
        simpl in Hstep. injection Hstep as <- <-. simpl sockets in Hw1.
        rewrite lookup_app_r, Nat.sub_diag in Hw1 by lia. injection Hw1 as <-.
        destruct (IH1 (length (sockets s0)) (mkWebSocket uuid null OPEN)) as (w2 & Hw2 & Hp2).
        { simpl. rewrite lookup_app_r, Nat.sub_diag by lia. reflexivity. }
        rewrite Hw2, Hp2. simpl peerId.
        exists (inbox (length (sockets s0)) out2).
        rewrite inbox_cons_own. reflexivity.
      * assert (Hnil : inbox h out1 = []).
        { apply inbox_nil_iff. intros [c m] Hin Hc. simpl in Hc. subst c.
          assert (Hin' : (h, m) ∈ outcome_sent (step e s0)) by (rewrite Hstep; exact Hin).
          apply lookup_ge_None_1 in Hw1.
          assert (Hle : (length (sockets s0) ≤ length (sockets s1))%nat).
          { rewrite <- (length_fmap peerId (sockets s1)), Hids, length_app, length_fmap. lia. }
          destruct (step_sent_cases e s0 h m Hin')
            as [(uuid & -> & -> & _)|[[_ Hs]|Ho]].
          - simpl in Hstep. injection Hstep as <- _. simpl in Hw1.
            rewrite length_app in Hw1. simpl in Hw1. lia.
          - rewrite Hnone in Hs. destruct Hs as [? [=]].
          - unfold is_open in Ho. rewrite Hnone in Ho. discriminate. }
        rewrite Hnil. simpl. apply IH2, Hw1.
Qed.

(** X1: over every run of the server from its start, the first message a
    connected socket was ever sent is your-peer-id with its own peerId;
    no message was sent to a handle that is not a socket. *)
Theorem your_peer_id_comes_first es s out h :
  run es initial = Some (s, out) →
  match sockets s !! h with
  | None => inbox h out = []
  | Some ws => ∃ rest, inbox h out = send h (msg_your_peer_id (peerId ws)) :: rest
  end.
Proof.
  intros Hrun. apply (proj2 (run_inbox es initial s out Hrun) h). reflexivity.
Qed.

Lemma your_peer_id_comes_first_witness :
  ∃ out rest,
    run [EConnection "X"; EMessage 0 (Some (join_msg "r1"));
         EConnection "Y"; EMessage 1 (Some (join_msg "r1"))] initial
    = Some (demo_XY_in_r1, out) ∧
    inbox 1 out = send 1 (msg_your_peer_id "Y") :: rest.
Proof.
  assert (Hrun : ∃ out,
             run [EConnection "X"; EMessage 0 (Some (join_msg "r1"));
                  EConnection "Y"; EMessage 1 (Some (join_msg "r1"))] initial
             = Some (demo_XY_in_r1, out)) by (eexists; reflexivity).
  destruct Hrun as [out Hrun].
  pose proof (your_peer_id_comes_first _ _ out 1 Hrun) as H. simpl in H.
  destruct H as [rest H]. exists out, rest. split; assumption.
Defined.

(** X10: over every run, a socket keeps the handle and the peerId it was
    given at its connection: events of any socket, its own included, never
    change a peerId, and no socket is ever removed from the store. *)
Theorem peerId_kept_for_life es s s' out h ws :
  run es s = Some (s', out) →
  sockets s !! h = Some ws →
  ∃ ws', sockets s' !! h = Some ws' ∧ peerId ws' = peerId ws.
Proof.
  intros Hrun. apply (proj1 (run_inbox es s s' out Hrun) h).
Qed.

Lemma peerId_kept_for_life_witness :
  ∃ ws', sockets demo_X_in_r1 !! 0 = Some ws' ∧ peerId ws' = "X".
Proof.
  exact (peerId_kept_for_life [EMessage 0 (Some (join_msg "r1"))]
           (mkState [mkWebSocket "X" null OPEN] [] 0) demo_X_in_r1
           [send 0 (msg_joined_room (VString "r1") "X")] 0
           (mkWebSocket "X" null OPEN) eq_refl eq_refl).
Defined.

(** ** The room table and the sockets agree *)

(** X14: in every state the server reaches, no two sockets have the same
    peerId, and every entry of a room's member map is the peerId and the
    handle of one connected socket whose currentRoomId is that room; a
    member map lists no peerId twice and its room id is truthy. *)
Theorem room_members_are_sockets s rid members :
  reachable s →
  JSMap.get rid (rooms s) = Some members →
  ToBoolean (key_value rid) = true ∧
  NoDup (JSMap.keys members) ∧
  (∀ p c, JSMap.get p members = Some c →
          ∃ ws, sockets s !! c = Some ws ∧ peerId ws = p ∧ currentRoomId ws = rid) ∧
  (∀ h1 h2 ws1 ws2,
     sockets s !! h1 = Some ws1 → sockets s !! h2 = Some ws2 →
     peerId ws1 = peerId ws2 → h1 = h2).
Proof.
  intros HI%reachable_Inv Hget.
  destruct (inv_room s HI rid members Hget) as (Ht & _ & Hnd & Hmem).
  split; [exact Ht |]. split; [exact Hnd |]. split.
  - intros p c Hc. apply Hmem, jsmap_get_elem, Hc.
  - intros h1 h2 ws1 ws2. apply peerId_inj, (inv_peerIds s HI).
Qed.

Lemma room_members_are_sockets_witness :
  ∃ ws, sockets demo_XYZ_in_r1 !! 2 = Some ws ∧ peerId ws = "Z" ∧
        currentRoomId ws = KPrim (VString "r1").
Proof.
  destruct (room_members_are_sockets demo_XYZ_in_r1 (KPrim (VString "r1"))
              [("X", 0); ("Y", 1); ("Z", 2)] demo_XYZ_in_r1_reachable eq_refl)
    as (_ & _ & H & _).
  apply (H "Z" 2). reflexivity.
Defined.

(** ** Exceptions come before any effect *)

Lemma relay_uncaught s h ws data type s' out :
  Inv s → sockets s !! h = Some ws → is_relay_type type = true →
  relay h ws data type s = Uncaught s' out → s' = s ∧ out = [].
Proof.
  intros HI Hws Hrel. unfold relay.
  destruct (Get data "targetPeerId") as [t|]; [|intros [= <- <-]; auto].
  destruct (negb (ToBoolean t)); [discriminate |].
  destruct (current_room ws s) as [members|]; [|discriminate].
  destruct (get_client t members) as [c|] eqn:Hc.
  - destruct (is_open s c).
    + assert (Hlog : console [type; t; key_value (currentRoomId ws)] = true).
      { apply console_cons. split.
        - apply is_relay_type_cases in Hrel as [->|[->| ->]]; simpl; eauto.
        - apply console_cons. split.
          + destruct t; try discriminate. simpl. eauto.
          + apply (inv_socket s HI h ws Hws). }
      rewrite Hlog. discriminate.
    + destruct (console _); [|intros [= <- <-]; auto].
      destruct (ToString t); [discriminate | intros [= <- <-]; auto].
  - destruct (console _); [|intros [= <- <-]; auto].
    destruct (ToString t); [discriminate | intros [= <- <-]; auto].
Qed.

(** X15: in a state the server reaches, a handler that ends in an uncaught
    exception has changed nothing and sent nothing: every exception of the
    message handler is thrown before its first assignment and its first
    send, and the close and error handlers do not throw. *)
Theorem uncaught_exception_changes_nothing e s s' out :
  reachable s → step e s = Uncaught s' out → s' = s ∧ out = [].
Proof.
  intros HI%reachable_Inv. destruct e as [uuid|h parsed|h|h|h rs]; simpl.
  - discriminate.
  - unfold on_message.
    destruct (sockets s !! h) as [ws|] eqn:Hws; [|discriminate].
    destruct parsed as [data|]; [|discriminate].
    destruct (Get data "type") as [type|]; [|intros [= <- <-]; auto].
    destruct (Get data "roomId") as [roomId|]; [|intros [= <- <-]; auto].
    destruct (console [type; or_else roomId (VString "N/A")]) eqn:Hlog;
      simpl negb; cbv iota; [|intros [= <- <-]; auto].
    case_bool_decide; [|destruct (is_relay_type type) eqn:Hrel].
    + destruct (ToBoolean roomId) eqn:Htruthy.
      * assert (Hlog' : console [roomId] = true).
        { apply console_cons in Hlog as [_ Hlog]. unfold or_else in Hlog.
          rewrite Htruthy in Hlog. exact Hlog. }
        destruct (join_room_Inv s h ws roomId HI Hws Hlog') as (s1 & out1 & -> & _).
        discriminate.
      * unfold join_room. rewrite Htruthy. discriminate.
    + apply relay_uncaught; assumption.
    + destruct (ToString type); [discriminate | intros [= <- <-]; auto].
  - unfold on_close. destruct (leaveRoom_Inv s h HI) as (s1 & out1 & -> & _).
    discriminate.
  - unfold on_error. destruct (leaveRoom_Inv s h HI) as (s1 & out1 & -> & _).
    discriminate.
  - discriminate.
Qed.

Lemma uncaught_exception_changes_nothing_witness :
  demo_XY_in_r1 = demo_XY_in_r1 ∧ ([] : list Sent) = [].
Proof.
  exact (uncaught_exception_changes_nothing (EMessage 0 (Some VNull)) demo_XY_in_r1
           demo_XY_in_r1 [] demo_XY_in_r1_reachable eq_refl).
Defined.
